(** * meas_extensions_multiShapelet: packed indices, pixel extraction and the
      Gaussian model builder

    A shallow embedding of
    - [PackedIndex]            (include/lsst/afw/math/shapelets/HermiteEvaluator.h),
    - [ModelInputHandler]      (src/multiShapelet/ModelInputHandler.cc),
    - [GaussianModelBuilder]   (src/GaussianModelBuilder.cc).

    Conventions.  A C++ [int] is a [Z] kept in the signed 32-bit range by
    [wrap32] after every arithmetic operation.  Pixel coordinates of spans
    and boxes are [Z], and the loops over them stay inside the range of
    [int].  A C++ [double] is idealised as a real number of
    [Reals]: rounding, infinities and NaN are outside the model.  An
    out-of-bounds array access has no defined behaviour in C++; the
    embedding makes it an explicit failure ([None] or [Undefined]). *)

From Stdlib Require Import ZArith NArith List Bool Lia.
From Stdlib Require Import Reals Lra.
From Stdlib Require String.
Import ListNotations.

(* ================================================================== *)
(** * Part I.  PackedIndex                                             *)
(* ================================================================== *)

Module Packed.

Local Open Scope Z_scope.

(** Two's-complement reduction of an integer to the range of [int]. *)
Definition wrap32 (z : Z) : Z := (z + 2147483648) mod 4294967296 - 2147483648.

Definition INT_MAX : Z := 2147483647.

(** [class PackedIndex { int _n; int _i; int _x; int _y; }] *)
Record PackedIndex : Type := mkPackedIndex {
  _n : Z;
  _i : Z;
  _x : Z;
  _y : Z
}.

(** [static int computeOffset(int order) { return order*(order+1)/2; }]
    (C++ integer division truncates towards zero). *)
Definition computeOffset (order : Z) : Z :=
  wrap32 (Z.quot (wrap32 (order * wrap32 (order + 1))) 2).

(** [static int computeIndex(int x, int y) { return computeOffset(x+y) + x; }] *)
Definition computeIndex (x y : Z) : Z :=
  wrap32 (computeOffset (wrap32 (x + y)) + x).

(** [PackedIndex() : _n(0), _i(0), _x(0), _y(0) {}] *)
Definition origin : PackedIndex := mkPackedIndex 0 0 0 0.

(** [PackedIndex(int x, int y) : _n(x+y), _i(computeOffset(_n) + x), _x(x), _y(y) {}] *)
Definition make (x y : Z) : PackedIndex :=
  let n := wrap32 (x + y) in
  mkPackedIndex n (wrap32 (computeOffset n + x)) x y.

(** [operator++]:
<<
    ++_i;
    if (--_y < 0) { _x = 0; _y = ++_n; } else { ++_x; }
>> *)
Definition incr (p : PackedIndex) : PackedIndex :=
  let i' := wrap32 (_i p + 1) in
  let y' := wrap32 (_y p - 1) in
  if y' <? 0 then
    let n' := wrap32 (_n p + 1) in
    mkPackedIndex n' i' 0 n'
  else
    mkPackedIndex (_n p) i' (wrap32 (_x p + 1)) y'.

Definition getOrder (p : PackedIndex) : Z := _n p.
Definition getX (p : PackedIndex) : Z := _x p.
Definition getY (p : PackedIndex) : Z := _y p.
Definition getIndex (p : PackedIndex) : Z := _i p.

(** The state reached from the default-constructed index after [k]
    applications of [operator++]. *)
Definition steps (k : Z) : PackedIndex := N.iter (Z.to_N k) incr origin.

(** The documented traversal
    [for (PackedIndex i; i.getOrder() <= order; ++i) { ... }],
    collecting the visited states; [fuel] bounds the number of iterations. *)
Fixpoint traverse (fuel : nat) (order : Z) (p : PackedIndex) : list PackedIndex :=
  match fuel with
  | O => []
  | S fuel' =>
      if getOrder p <=? order then p :: traverse fuel' order (incr p) else []
  end.

(** Mathematical triangular number [n(n+1)/2] and basis size
    [(M+1)(M+2)/2], over unbounded integers. *)
Definition tri (n : Z) : Z := n * (n + 1) / 2.
Definition basisSize (M : Z) : Z := (M + 1) * (M + 2) / 2.

End Packed.

(* ================================================================== *)
(** * Part II.  Regions, images and ModelInputHandler                  *)
(* ================================================================== *)

(** [ndarray::Array<T,2>]: a shape and the elements, addressed [row][col]. *)
Record Array2 (A : Type) : Type := mkArray2 {
  size0 : nat;
  size1 : nat;
  elem : nat -> nat -> A
}.
Arguments mkArray2 {A} _ _ _.
Arguments size0 {A} _.
Arguments size1 {A} _.
Arguments elem {A} _ _ _.

(** Checked element access: [None] stands for an access outside the shape. *)
Definition getElem {A : Type} (a : Array2 A) (r c : Z) : option A :=
  if ((0 <=? r) && (r <? Z.of_nat (size0 a))
      && (0 <=? c) && (c <? Z.of_nat (size1 a)))%Z
  then Some (elem a (Z.to_nat r) (Z.to_nat c))
  else None.

(** Error-propagating traversal of a list. *)
Fixpoint mapM {A B : Type} (f : A -> option B) (l : list A) : option (list B) :=
  match l with
  | [] => Some []
  | a :: l' =>
      match f a with
      | None => None
      | Some b =>
          match mapM f l' with
          | None => None
          | Some bs => Some (b :: bs)
          end
      end
  end.

(** The integers [lo, lo+1, ..., hi] (empty when [hi < lo]): the values taken
    by [for (int v = lo; v <= hi; ++v)]. *)
Definition zrange (lo hi : Z) : list Z :=
  map (fun k => (lo + Z.of_nat k)%Z) (seq 0 (Z.to_nat (hi - lo + 1))).

(** ** The afw collaborators

    [afw::geom::Box2I], [afw::detection::Span] and [Footprint],
    [afw::image::Image] and [MaskedImage] belong to the afw package; the
    handler uses them through the operations below. *)
Module Afw.

(** Modelled from the spec: afw's [Box2I] is missing from the sources; an
    integer box with inclusive corners, empty when a maximum lies below the
    minimum. *)
Record Box2I : Type := mkBox2I {
  getMinX : Z;
  getMinY : Z;
  getMaxX : Z;
  getMaxY : Z
}.

Definition contains (b : Box2I) (x y : Z) : bool :=
  ((getMinX b <=? x) && (x <=? getMaxX b)
   && (getMinY b <=? y) && (y <=? getMaxY b))%Z.

(** Modelled from the spec: afw's [Span] is missing from the sources; a
    horizontal run [(row, xStart, xEnd)]. *)
Record Span : Type := mkSpan {
  getY : Z;
  getX0 : Z;
  getX1 : Z
}.

(** Modelled from the spec: afw's [Footprint] is missing from the sources;
    the ordered sequence of spans returned by [getSpans()]. *)
Definition Footprint : Type := list Span.

(** Modelled from the spec: [Footprint::getArea], the sum of
    [xEnd - xStart + 1] over the spans. *)
Definition getArea (fp : Footprint) : Z :=
  fold_right (fun s acc => (getX1 s - getX0 s + 1 + acc)%Z) 0%Z fp.

(** The pixels [(x, y)] of a span, and of a footprint in row-major span
    traversal order: the values taken by
    [for (span) for (int x = getX0(); x <= getX1(); ++x)]. *)
Definition spanPixels (s : Span) : list (Z * Z) :=
  map (fun x => (x, getY s)) (zrange (getX0 s) (getX1 s)).

Definition pixels (fp : Footprint) : list (Z * Z) := flat_map spanPixels fp.

(** Modelled from the spec: [Footprint(Box2I)], one span per row of the box. *)
Definition ofBox (b : Box2I) : Footprint :=
  map (fun y => mkSpan y (getMinX b) (getMaxX b)) (zrange (getMinY b) (getMaxY b)).

(** Modelled from the spec: [Footprint::clipTo(bbox)], missing from the
    sources: rows outside the box are dropped, the others are cut to the
    columns of the box, and spans left empty are dropped. *)
Definition clipSpan (b : Box2I) (s : Span) : list Span :=
  if ((getY s <? getMinY b) || (getMaxY b <? getY s))%Z then []
  else
    let x0 := Z.max (getX0 s) (getMinX b) in
    let x1 := Z.min (getX1 s) (getMaxX b) in
    if (x1 <? x0)%Z then [] else [mkSpan (getY s) x0 x1].

Definition clipTo (b : Box2I) (fp : Footprint) : Footprint :=
  flat_map (clipSpan b) fp.

(** Modelled from the spec: [Footprint::normalize], missing from the
    sources: spans sorted by row then first column, overlapping or adjacent
    spans of a row merged. *)
Definition spanLeb (s t : Span) : bool :=
  ((getY s <? getY t)
   || ((getY s =? getY t) && (getX0 s <=? getX0 t)))%Z.

Fixpoint insertSpan (s : Span) (l : list Span) : list Span :=
  match l with
  | [] => [s]
  | t :: l' => if spanLeb s t then s :: l else t :: insertSpan s l'
  end.

Fixpoint mergeSpans (cur : Span) (l : list Span) : list Span :=
  match l with
  | [] => [cur]
  | t :: l' =>
      if ((getY t =? getY cur) && (getX0 t <=? getX1 cur + 1))%Z
      then mergeSpans (mkSpan (getY cur) (getX0 cur) (Z.max (getX1 cur) (getX1 t))) l'
      else cur :: mergeSpans t l'
  end.

Definition normalize (fp : Footprint) : Footprint :=
  match fold_right insertSpan [] fp with
  | [] => []
  | s :: l => mergeSpans s l
  end.

(** [afw::image::Image<PixelT>]: the origin [getXY0()] and the pixel array
    [getArray()]. *)
Record Image (A : Type) : Type := mkImage {
  getXY0 : Z * Z;
  getArray : Array2 A
}.
Arguments mkImage {A} _ _.
Arguments getXY0 {A} _.
Arguments getArray {A} _.

(** [image.getBBox(afw::image::PARENT)] *)
Definition getBBox {A : Type} (im : Image A) : Box2I :=
  let '(x0, y0) := getXY0 im in
  mkBox2I x0 y0
          (x0 + Z.of_nat (size1 (getArray im)) - 1)
          (y0 + Z.of_nat (size0 (getArray im)) - 1).

(** [afw::image::MaskedImage<PixelT>]: an image, a mask and a variance plane
    of one common geometry. *)
Record MaskedImage : Type := mkMaskedImage {
  miXY0 : Z * Z;
  miHeight : nat;
  miWidth : nat;
  miImage : nat -> nat -> R;
  miMask : nat -> nat -> Z;
  miVariance : nat -> nat -> R
}.

Definition getImage (mi : MaskedImage) : Image R :=
  mkImage (miXY0 mi) (mkArray2 (miHeight mi) (miWidth mi) (miImage mi)).
Definition getMask (mi : MaskedImage) : Image Z :=
  mkImage (miXY0 mi) (mkArray2 (miHeight mi) (miWidth mi) (miMask mi)).
Definition getVariance (mi : MaskedImage) : Image R :=
  mkImage (miXY0 mi) (mkArray2 (miHeight mi) (miWidth mi) (miVariance mi)).

(** Modelled from the spec: [Footprint::intersectMask(mask, bitmask)],
    missing from the sources: the footprint is normalized, every part of it
    outside the bounds of the mask is cut away, and of the remaining pixels
    only those whose mask value shares no bit with [bitmask] are kept,
    regrouped into maximal runs. *)
Definition flushRun (y : Z) (cur : option (Z * Z)) : list Span :=
  match cur with
  | Some (a, b) => [mkSpan y a b]
  | None => []
  end.

Fixpoint goodRuns (good : Z -> bool) (y : Z) (xs : list Z) (cur : option (Z * Z))
  : list Span :=
  match xs with
  | [] => flushRun y cur
  | x :: xs' =>
      if good x then
        goodRuns good y xs'
                 (Some (match cur with Some (a, _) => (a, x) | None => (x, x) end))
      else flushRun y cur ++ goodRuns good y xs' None
  end.

Definition isGood (mask : Image Z) (bitmask : Z) (y x : Z) : bool :=
  let '(x0, y0) := getXY0 mask in
  match getElem (getArray mask) (y - y0) (x - x0) with
  | Some m => (Z.land m bitmask =? 0)%Z
  | None => false
  end.

Definition maskSpan (mask : Image Z) (bitmask : Z) (s : Span) : list Span :=
  flat_map
    (fun c => goodRuns (isGood mask bitmask (getY c)) (getY c)
                       (zrange (getX0 c) (getX1 c)) None)
    (clipSpan (getBBox mask) s).

Definition intersectMask (mask : Image Z) (bitmask : Z) (fp : Footprint) : Footprint :=
  flat_map (maskSpan mask bitmask) (normalize fp).

(** Modelled from the spec: [afw::detection::flattenArray(fp, src, dest, xy0)],
    missing from the sources: the pixel values of [src] under the footprint,
    in span traversal order, looked up at [src[y - y0][x - x0]]. *)
Definition flattenArray {A : Type} (fp : Footprint) (src : Array2 A) (xy0 : Z * Z)
  : option (list A) :=
  mapM (fun p => getElem src (snd p - snd xy0) (fst p - fst xy0)) (pixels fp).

End Afw.

Module Handler.

Import Afw.
Local Open Scope R_scope.

(** [class ModelInputHandler]: the working footprint and the flattened
    arrays.  [_weights] stays unallocated ([None]) in the constructors that
    take a plain image. *)
Record ModelInputHandler : Type := mkModelInputHandler {
  _footprint : Footprint;
  _x : list R;
  _y : list R;
  _data : list R;
  _weights : option (list R)
}.

(** [initCoords(x, y, region, center)]:
<<
    for (span) {
        double dy = span.getY() - center.getY();
        for (int ix = span.getX0(); ix <= span.getX1(); ++ix) {
            x[n] = ix - center.getX();  y[n] = dy;  ++n;
        }
    }
>> *)
Definition initCoords (region : Footprint) (center : R * R) : list R * list R :=
  (flat_map (fun s => map (fun ix => IZR ix - fst center)
                          (zrange (getX0 s) (getX1 s))) region,
   flat_map (fun s => let dy := IZR (getY s) - snd center in
                      map (fun _ => dy) (zrange (getX0 s) (getX1 s))) region).

(** Eigen's [mean()]: the sum divided by the number of coefficients.  This
    total version also gives a value, [0 / 0], to the empty array, on which
    Eigen's [mean()] has none; [meanDefined] below keeps that precondition. *)
Definition mean (v : list R) : R := fold_right Rplus 0 v / INR (length v).

(** Coefficient-wise product of two arrays of one length. *)
Definition cwiseMul (a b : list R) : list R :=
  map (fun p => fst p * snd p) (combine a b).

(** The tail shared by the two masked constructors:
<<
    if (!usePixelWeights) _weights.setConstant(_weights.mean());
    _weights = _weights.sqrt().inverse();
    _data *= _weights;
>> *)
Definition applyWeights (usePixelWeights : bool) (data variance : list R)
  : list R * list R :=
  let w1 := if usePixelWeights then variance
            else map (fun _ => mean variance) variance in
  let w2 := map (fun v => / sqrt v) w1 in
  (cwiseMul data w2, w2).

Section Constructors.

(** [afw::detection::growFootprint(region, nGrow)], a collaborator whose
    result is not constrained here. *)
Variable growFootprint : Footprint -> Z -> Footprint.

(** [ModelInputHandler(Image const & image, Point2D center, Box2I region)] *)
Definition ofImageBox (image : Image R) (center : R * R) (region : Box2I)
  : option ModelInputHandler :=
  let fp := clipTo (getBBox image) (ofBox region) in
  match flattenArray fp (getArray image) (getXY0 image) with
  | None => None
  | Some data =>
      let '(x, y) := initCoords fp center in
      Some (mkModelInputHandler fp x y data None)
  end.

(** [ModelInputHandler(Image const & image, Point2D center,
                       Footprint region, int growFootprint)] *)
Definition ofImageFootprint (image : Image R) (center : R * R)
           (region : Footprint) (grow : Z) : option ModelInputHandler :=
  let fp0 := if (grow =? 0)%Z then region else growFootprint region grow in
  let fp := clipTo (getBBox image) fp0 in
  match flattenArray fp (getArray image) (getXY0 image) with
  | None => None
  | Some data =>
      let '(x, y) := initCoords fp center in
      Some (mkModelInputHandler fp x y data None)
  end.

(** The statements common to the two masked constructors, from
    [intersectMask] on. *)
Definition ofMasked (image : MaskedImage) (center : R * R) (fp0 : Footprint)
           (badPixelMask : Z) (usePixelWeights : bool) : option ModelInputHandler :=
  let fp := intersectMask (getMask image) badPixelMask fp0 in
  match flattenArray fp (getArray (getImage image)) (miXY0 image) with
  | None => None
  | Some data =>
      match flattenArray fp (getArray (getVariance image)) (miXY0 image) with
      | None => None
      | Some variance =>
          let '(data', weights) := applyWeights usePixelWeights data variance in
          let '(x, y) := initCoords fp center in
          Some (mkModelInputHandler fp x y data' (Some weights))
      end
  end.

(** [ModelInputHandler(MaskedImage const & image, Point2D center, Box2I region,
                       MaskPixel badPixelMask, bool usePixelWeights)] *)
Definition ofMaskedImageBox (image : MaskedImage) (center : R * R)
           (region : Box2I) (badPixelMask : Z) (usePixelWeights : bool)
  : option ModelInputHandler :=
  ofMasked image center (ofBox region) badPixelMask usePixelWeights.


End Constructors.

(** A span lies inside a box and is not empty. *)
Definition spanInside (b : Box2I) (s : Span) : Prop :=
  (getMinY b <= getY s <= getMaxY b
   /\ getMinX b <= getX0 s /\ getX0 s <= getX1 s /\ getX1 s <= getMaxX b)%Z.

(** The value of a pixel of an image plane, addressed in parent coordinates. *)
Definition pixelAt {A : Type} (arr : Array2 A) (xy0 : Z * Z) (p : Z * Z) : A :=
  elem arr (Z.to_nat (snd p - snd xy0)) (Z.to_nat (fst p - fst xy0)).

(** Eigen's [mean()] is a reduction over the coefficients of the array, and
    the reduction requires at least one coefficient (it asserts "you are
    using an empty matrix"): on an array of size 0 the call has no defined
    result.  [meanDefined] is [mean] with that precondition. *)
Definition meanDefined (v : list R) : option R :=
  match v with
  | [] => None
  | _ :: _ => Some (mean v)
  end.

(** The tail of the two masked constructors with the precondition of
    [mean()] kept: [None] stands for [mean()] called on an empty array. *)
Definition applyWeightsStrict (usePixelWeights : bool) (data variance : list R)
  : option (list R * list R) :=
  match (if usePixelWeights then Some variance
         else match meanDefined variance with
              | None => None
              | Some m => Some (map (fun _ => m) variance)
              end) with
  | None => None
  | Some w1 =>
      let w2 := map (fun v => / sqrt v) w1 in
      Some (cwiseMul data w2, w2)
  end.

Section StrictConstructors.

Variable growFootprint : Footprint -> Z -> Footprint.

(** The masked constructors, statement by statement as [ofMasked], with the
    precondition of [mean()] kept: the result is [None] when the
    construction reads outside an array or calls [mean()] on an empty one. *)
Definition ofMaskedStrict (image : MaskedImage) (center : R * R) (fp0 : Footprint)
           (badPixelMask : Z) (usePixelWeights : bool) : option ModelInputHandler :=
  let fp := intersectMask (getMask image) badPixelMask fp0 in
  match flattenArray fp (getArray (getImage image)) (miXY0 image) with
  | None => None
  | Some data =>
      match flattenArray fp (getArray (getVariance image)) (miXY0 image) with
      | None => None
      | Some variance =>
          match applyWeightsStrict usePixelWeights data variance with
          | None => None
          | Some (data', weights) =>
              let '(x, y) := initCoords fp center in
              Some (mkModelInputHandler fp x y data' (Some weights))
          end
      end
  end.

Definition ofMaskedImageBoxStrict (image : MaskedImage) (center : R * R)
           (region : Box2I) (badPixelMask : Z) (usePixelWeights : bool)
  : option ModelInputHandler :=
  ofMaskedStrict image center (ofBox region) badPixelMask usePixelWeights.

Definition ofMaskedImageFootprintStrict (image : MaskedImage) (center : R * R)
           (region : Footprint) (grow : Z) (badPixelMask : Z)
           (usePixelWeights : bool) : option ModelInputHandler :=
  let fp0 := if (grow =? 0)%Z then region else growFootprint region grow in
  ofMaskedStrict image center fp0 badPixelMask usePixelWeights.

End StrictConstructors.

(** Inputs of the worked scenarios: a 1 x 5 image holding 1..5, and a
    1 x 2 masked image with pixel values 3, 5, a clear mask and variances
    1, 4. *)
Definition rowImage : Image R :=
  mkImage (0, 0)%Z (mkArray2 1 5 (fun _ c => nth c [1; 2; 3; 4; 5] 0)).

Definition twoPixelMasked : MaskedImage :=
  mkMaskedImage (0, 0)%Z 1 2
                (fun _ c => nth c [3; 5] 0)
                (fun _ _ => 0%Z)
                (fun _ c => nth c [1; 4] 0).

(** The same image with mask value 1 on both pixels. *)
Definition allBadMasked : MaskedImage :=
  mkMaskedImage (0, 0)%Z 1 2
                (fun _ c => nth c [3; 5] 0)
                (fun _ _ => 1%Z)
                (fun _ c => nth c [1; 4] 0).

End Handler.

(* ================================================================== *)
(** * Part III.  GaussianModelBuilder                                  *)
(* ================================================================== *)

Module Builder.

Import Afw.
Local Open Scope R_scope.

(** [afw::geom::AffineTransform::Parameters]: the six coefficients of
    [T(x,y) = (XX x + XY y + X, YX x + YY y + Y)], which index the rows of a
    grid-transform Jacobian (written [AT::XX] ... [AT::Y] in the source). *)
Inductive ATParam : Type := XX | YX | XY | YY | X | Y.

Definition allParams : list ATParam := [XX; YX; XY; YY; X; Y].

(** [afw::geom::AffineTransform], by its coefficients. *)
Definition AffineTransform : Type := ATParam -> R.

(** [Eigen::Matrix<double,6,Eigen::Dynamic>] *)
Record Jacobian : Type := mkJacobian {
  cols : nat;
  coeff : ATParam -> nat -> R
}.

(** [Eigen::Matrix<double,5,Eigen::Dynamic>] *)
Record Matrix5 : Type := mkMatrix5 {
  cols5 : nat;
  coeff5 : nat -> nat -> R
}.

(** [afw::geom::ellipses::Ellipse], through the two things the builder asks
    of it: the grid transform and its 6x5 derivative [getGridTransform().d()]. *)
Record Ellipse : Type := mkEllipse {
  getGridTransform : AffineTransform;
  getGridTransform_d : ATParam -> nat -> R
}.

(** [class GaussianModelBuilder { Eigen::MatrixXd _xy, _xyt; ndarray _model; }]:
    [_xy] and [_xyt] are N x 2, a row per pixel; [_model] is empty until the
    first [computeModel]. *)
Record GaussianModelBuilder : Type := mkBuilder {
  _xy : list (R * R);
  _xyt : list (R * R);
  _model : list R
}.

(** [_xy.rows()] *)
Definition rows (b : GaussianModelBuilder) : nat := length (_xy b).

(** [GaussianModelBuilder(Footprint const & region)]: the rows of [_xy] are the
    pixels of the region in span order; Eigen leaves [_xyt] uninitialised, its
    indeterminate contents are the argument [uninit]. *)
Definition ofFootprint (region : Footprint) (uninit : nat -> R * R)
  : GaussianModelBuilder :=
  let xy := map (fun p => (IZR (fst p), IZR (snd p))) (pixels region) in
  mkBuilder xy (map uninit (seq 0 (length xy))) [].

(** [GaussianModelBuilder(Box2I const & region)]: rows [y = minY..maxY], and
    in each row [x = minX..maxX]. *)
Definition ofBox2I (region : Box2I) (uninit : nat -> R * R)
  : GaussianModelBuilder :=
  let xy := flat_map (fun y => map (fun x => (IZR x, IZR y))
                                   (zrange (getMinX region) (getMaxX region)))
                     (zrange (getMinY region) (getMaxY region)) in
  mkBuilder xy (map uninit (seq 0 (length xy))) [].

(** The grid transform applied to one row of [_xy]:
    [_xyt.transpose() = m * _xy.transpose(); _xyt.transpose().colwise() += t]. *)
Definition applyTransform (t : AffineTransform) (p : R * R) : R * R :=
  (t XX * fst p + t XY * snd p + t X,
   t YX * fst p + t YY * snd p + t Y).

(** [rowwise().squaredNorm()] of a row. *)
Definition squaredNorm (p : R * R) : R := fst p * fst p + snd p * snd p.

(** [computeModel(ellipse)]: returns the builder with its refreshed buffers
    and the model array. *)
Definition computeModel (b : GaussianModelBuilder) (ellipse : Ellipse)
  : GaussianModelBuilder * list R :=
  let xyt := map (applyTransform (getGridTransform ellipse)) (_xy b) in
  let model := map (fun p => exp (- (1 / 2) * squaredNorm p)) xyt in
  (mkBuilder (_xy b) xyt model, model).

(** What [InvalidParameterException] reports: the two formatted numbers of
    ["Incorrect number of rows for array: got %d, expected %d"], or of
    ["Mismatch between array (%d) and jacobian dimensions (%d)"]. *)
Inductive Message : Type :=
| IncorrectRows (got expected : nat)
| JacobianMismatch (arrayCols jacobianCols : nat).

(** How a call ends: it returns, throws, or runs into an access outside an
    array.  After [Undefined] the program guarantees nothing: a builder and
    an output that are given along with it carry no meaning. *)
Inductive Outcome : Type :=
| Returned
| InvalidParameter (msg : Message)
| Undefined.

(** [std::numeric_limits<double>::epsilon()], 2^-52. *)
Definition epsilon : R := / 4503599627370496.

(** [jacobian.lpNorm<Eigen::Infinity>()]: the largest absolute coefficient. *)
Definition lpNormInf (j : Jacobian) : R :=
  fold_right Rmax 0
    (flat_map (fun n => map (fun k => Rabs (coeff j k n)) allParams)
              (seq 0 (cols j))).

(** [std::abs(v) > eps] *)
Definition exceeds (eps v : R) : bool :=
  if Rlt_dec eps (Rabs v) then true else false.

(** [out.col(n) += v] for a column vector [v] over the rows of [out]. *)
Definition colAdd (out : Array2 R) (n : nat) (v : nat -> R) : option (Array2 R) :=
  if (n <? size1 out)%nat then
    Some (mkArray2 (size0 out) (size1 out)
            (fun i j => if ((j =? n) && (i <? size0 out))%nat
                        then elem out i j + v i else elem out i j))
  else None.

(** [out.setZero()] *)
Definition setZero (out : Array2 R) : Array2 R :=
  mkArray2 (size0 out) (size1 out) (fun _ _ => 0).

Definition bind {A B : Type} (m : option A) (f : A -> option B) : option B :=
  match m with
  | Some a => f a
  | None => None
  end.

Notation "'do' x <- m ; k" := (bind m (fun x => k))
  (at level 10, x name, m at level 100, k at level 200).

(** Columns of [_xy], and the arrays [dfdx], [dfdy], as functions of the row. *)
Definition col0 (m : list (R * R)) (i : nat) : R := fst (nth i m (0, 0)).
Definition col1 (m : list (R * R)) (i : nat) : R := snd (nth i m (0, 0)).

Definition dfdx (b : GaussianModelBuilder) (i : nat) : R :=
  - col0 (_xyt b) i * nth i (_model b) 0.
Definition dfdy (b : GaussianModelBuilder) (i : nat) : R :=
  - col1 (_xyt b) i * nth i (_model b) 0.

(** The body of the loop over the Jacobian's columns:
<<
    if (std::abs(jacobian(AT::XX, n)) > eps)
        out.col(n) += jacobian(AT::XX, n) * _xy.col(0).array() * dfdx;
    if (std::abs(jacobian(AT::XY, n)) > eps)
        out.col(n) += jacobian(AT::XY, n) * _xy.col(1).array() * dfdx;
    if (std::abs(jacobian(AT::X, n)) > eps)
        out.col(n) += jacobian(AT::X, n) * dfdx;
    if (std::abs(jacobian(AT::YX, n)) > eps)
        out.col(n) += jacobian(AT::YX, n) * _xy.col(0).array() * dfdy;
    if (std::abs(jacobian(AT::YY, n)) > eps)
        out.col(n) += jacobian(AT::YY, n) * _xy.col(1).array() * dfdy;
    if (std::abs(jacobian(AT::Y, n)) > eps)
        out.col(n) += jacobian(AT::Y, n) * dfdy;
>> *)
Definition columnBody (b : GaussianModelBuilder) (j : Jacobian) (eps : R)
           (n : nat) (out : Array2 R) : option (Array2 R) :=
  do out <- (if exceeds eps (coeff j XX n)
             then colAdd out n (fun i => coeff j XX n * col0 (_xy b) i * dfdx b i)
             else Some out);
  do out <- (if exceeds eps (coeff j XY n)
             then colAdd out n (fun i => coeff j XY n * col1 (_xy b) i * dfdx b i)
             else Some out);
  do out <- (if exceeds eps (coeff j X n)
             then colAdd out n (fun i => coeff j X n * dfdx b i)
             else Some out);
  do out <- (if exceeds eps (coeff j YX n)
             then colAdd out n (fun i => coeff j YX n * col0 (_xy b) i * dfdy b i)
             else Some out);
  do out <- (if exceeds eps (coeff j YY n)
             then colAdd out n (fun i => coeff j YY n * col1 (_xy b) i * dfdy b i)
             else Some out);
  (if exceeds eps (coeff j Y n)
   then colAdd out n (fun i => coeff j Y n * dfdy b i)
   else Some out).

(** [for (int n = 0; n < jacobian.cols(); ++n) { ... }] *)
Definition columnLoop (body : nat -> Array2 R -> option (Array2 R))
           (ncols : nat) (out : Array2 R) : option (Array2 R) :=
  fold_left (fun acc n => bind acc (body n)) (seq 0 ncols) (Some out).

(** [_computeDerivative(output, ellipse, jacobian, add, reuseModel)]: the
    builder and the output array after the call, and how the call ended. *)
Definition _computeDerivative (b : GaussianModelBuilder) (output : Array2 R)
           (ellipse : Ellipse) (jacobian : Jacobian) (add reuseModel : bool)
  : GaussianModelBuilder * Array2 R * Outcome :=
  let b := if reuseModel then b else fst (computeModel b ellipse) in
  if negb (size0 output =? rows b)%nat then
    (b, output, InvalidParameter (IncorrectRows (size0 output) (rows b)))
  else if negb (size0 output =? rows b)%nat then
    (b, output, InvalidParameter (JacobianMismatch (size1 output) (cols jacobian)))
  else if negb (length (_model b) =? rows b)%nat then
    (b, output, Undefined)
  else
    let out := if add then output else setZero output in
    let eps := epsilon * lpNormInf jacobian in
    match columnLoop (columnBody b jacobian eps) (cols jacobian) out with
    | Some out' => (b, out', Returned)
    | None => (b, out, Undefined)
    end.

(** [computeDerivative(output, ellipse, reuseModel)] *)
Definition computeDerivative (b : GaussianModelBuilder) (output : Array2 R)
           (ellipse : Ellipse) (reuseModel : bool)
  : GaussianModelBuilder * Array2 R * Outcome :=
  let gtJac := mkJacobian 5 (getGridTransform_d ellipse) in
  _computeDerivative b output ellipse gtJac false reuseModel.

(** [computeDerivative(output, ellipse, jacobian, add, reuseModel)], with
    [finalJac = gtJac * jacobian]. *)
Definition computeDerivativeChained (b : GaussianModelBuilder) (output : Array2 R)
           (ellipse : Ellipse) (jacobian : Matrix5) (add reuseModel : bool)
  : GaussianModelBuilder * Array2 R * Outcome :=
  let finalJac :=
    mkJacobian (cols5 jacobian)
      (fun k p => fold_right Rplus 0
                    (map (fun m => getGridTransform_d ellipse k m * coeff5 jacobian m p)
                         (seq 0 5))) in
  _computeDerivative b output ellipse finalJac add reuseModel.

(** The same derivative with all six multiply-adds of a column performed
    unconditionally, as the specification allows a reimplementation to do. *)
Definition columnBodyAllTerms (b : GaussianModelBuilder) (j : Jacobian)
           (n : nat) (out : Array2 R) : option (Array2 R) :=
  do out <- colAdd out n (fun i => coeff j XX n * col0 (_xy b) i * dfdx b i);
  do out <- colAdd out n (fun i => coeff j XY n * col1 (_xy b) i * dfdx b i);
  do out <- colAdd out n (fun i => coeff j X n * dfdx b i);
  do out <- colAdd out n (fun i => coeff j YX n * col0 (_xy b) i * dfdy b i);
  do out <- colAdd out n (fun i => coeff j YY n * col1 (_xy b) i * dfdy b i);
  colAdd out n (fun i => coeff j Y n * dfdy b i).

Definition computeDerivativeAllTerms (b : GaussianModelBuilder) (output : Array2 R)
           (ellipse : Ellipse) (jacobian : Jacobian) (add reuseModel : bool)
  : GaussianModelBuilder * Array2 R * Outcome :=
  let b := if reuseModel then b else fst (computeModel b ellipse) in
  if negb (size0 output =? rows b)%nat then
    (b, output, InvalidParameter (IncorrectRows (size0 output) (rows b)))
  else if negb (size0 output =? rows b)%nat then
    (b, output, InvalidParameter (JacobianMismatch (size1 output) (cols jacobian)))
  else if negb (length (_model b) =? rows b)%nat then
    (b, output, Undefined)
  else
    let out := if add then output else setZero output in
    match columnLoop (columnBodyAllTerms b jacobian) (cols jacobian) out with
    | Some out' => (b, out', Returned)
    | None => (b, out, Undefined)
    end.

(** The partial derivative of the model at pixel [i] with respect to an
    affine coefficient: [x dfdx], [y dfdx], [dfdx], [x dfdy], [y dfdy], [dfdy]
    for [XX], [XY], [X], [YX], [YY], [Y]. *)
Definition affinePartial (b : GaussianModelBuilder) (k : ATParam) (i : nat) : R :=
  match k with
  | XX => col0 (_xy b) i * dfdx b i
  | XY => col1 (_xy b) i * dfdx b i
  | X => dfdx b i
  | YX => col0 (_xy b) i * dfdy b i
  | YY => col1 (_xy b) i * dfdy b i
  | Y => dfdy b i
  end.

(** The chain-rule sum over the six affine coefficients, and the same sum
    restricted to the coefficients that pass the magnitude test. *)
Definition chainSum (b : GaussianModelBuilder) (j : Jacobian) (i p : nat) : R :=
  fold_right Rplus 0 (map (fun k => affinePartial b k i * coeff j k p) allParams).

Definition keptSum (b : GaussianModelBuilder) (j : Jacobian) (eps : R) (i p : nat) : R :=
  fold_right Rplus 0
    (map (fun k => if exceeds eps (coeff j k p)
                   then affinePartial b k i * coeff j k p else 0) allParams).

(** What a loop body does to column [n]: it adds [F i n] to every row [i]. *)
Definition addsToColumn (body : nat -> Array2 R -> option (Array2 R))
           (F : nat -> nat -> R) : Prop :=
  forall n out, (n < size1 out)%nat ->
  exists out',
    body n out = Some out'
    /\ size0 out' = size0 out /\ size1 out' = size1 out
    /\ forall i p, elem out' i p
                   = if ((p =? n) && (i <? size0 out))%nat
                     then elem out i p + F i n else elem out i p.

(** The builder a call works with once the model has been refreshed or
    reused, and the condition under which its cached model can be read. *)
Definition afterModel (b : GaussianModelBuilder) (ellipse : Ellipse)
           (reuseModel : bool) : GaussianModelBuilder :=
  if reuseModel then b else fst (computeModel b ellipse).

Definition modelReady (b : GaussianModelBuilder) (reuseModel : bool) : Prop :=
  reuseModel = false \/ length (_model b) = rows b.

(** The grid transform of a circular unit Gaussian: the identity. *)
Definition identityTransform : AffineTransform :=
  fun k => match k with XX | YY => 1 | _ => 0 end.

(** Inputs of the worked scenarios.  [threePixels] is the pixel set
    {(0,0), (1,0), (0,1)}; [onePixel] is the single pixel (1,0);
    [tinyJacobian] has one column, with coefficient 1 on [YY], 2^-53 on [X]
    and 0 elsewhere. *)
Definition threePixels : Footprint := [mkSpan 0 0 1; mkSpan 1 0 0].

Definition onePixel : Footprint := [mkSpan 0 1 1].

Definition noContents : nat -> R * R := fun _ => (0, 0).

Definition unitCircle : Ellipse := mkEllipse identityTransform (fun _ _ => 0).

(** An ellipse whose grid transform is [T(x,y) = (x/2 - 1, 2y)]: semi-axes 2
    and 1/2 along x and y, centred at (2, 0). *)
Definition shiftedEllipse : Ellipse :=
  mkEllipse (fun k => match k with
                      | XX => 1 / 2
                      | YY => 2
                      | X => - 1
                      | _ => 0
                      end)
            (fun _ _ => 0).

Definition tinyJacobian : Jacobian :=
  mkJacobian 1 (fun k _ => match k with
                           | YY => 1
                           | X => / 9007199254740992
                           | _ => 0
                           end).

Definition zeros (r c : nat) : Array2 R := mkArray2 r c (fun _ _ => 0).

(** [GaussianModelBuilder(GaussianModelBuilder const & other) :
       _xy(other._xy), _xyt(other._xyt) {}]: the copy constructor copies the
    two coordinate matrices; [_model] is default-constructed, empty. *)
Definition copyOf (other : GaussianModelBuilder) : GaussianModelBuilder :=
  mkBuilder (_xy other) (_xyt other) [].

(** The value of the model at a pixel [p] for a grid transform [t], as
    [computeModel] computes it. *)
Definition modelAt (t : AffineTransform) (p : R * R) : R :=
  exp (- (1 / 2) * squaredNorm (applyTransform t p)).

Definition ATParam_eqb (k k' : ATParam) : bool :=
  match k, k' with
  | XX, XX | YX, YX | XY, XY | YY, YY | X, X | Y, Y => true
  | _, _ => false
  end.

(** The grid transform [t] with its coefficient [k] moved by [h]. *)
Definition perturb (t : AffineTransform) (k : ATParam) (h : R) : AffineTransform :=
  fun k' => if ATParam_eqb k k' then t k' + h else t k'.

(** The Jacobian [j] with every coefficient multiplied by [c]. *)
Definition scaleJacobian (c : R) (j : Jacobian) : Jacobian :=
  mkJacobian (cols j) (fun k p => c * coeff j k p).

(** The 5 x 5 identity matrix. *)
Definition identity5 : Matrix5 :=
  mkMatrix5 5 (fun m p => if (m =? p)%nat then 1 else 0).

(** No coefficient of column [p] of the Jacobian passes the magnitude test. *)
Definition quietColumn (j : Jacobian) (eps : R) (p : nat) : Prop :=
  forall k, exceeds eps (coeff j k p) = false.


End Builder.

(* ================================================================== *)
(** * Part IV.  FitProfile                                             *)
(* ================================================================== *)

Module Fit.

Import Handler.
Local Open Scope R_scope.

(** [struct FitProfileModel]: the profile name, the flux and its
    uncertainty, the ellipse core by its three parameters, and the failure
    flag. *)
Record FitProfileModel : Type := mkFitProfileModel {
  profile : String.string;
  flux : R;
  fluxErr : R;
  ellipse : R * R * R;
  failed : bool
}.

(** Eigen's [a.dot(b)], and [a.squaredNorm()] as [dot a a]. *)
Definition dot (a b : list R) : R := fold_right Rplus 0 (cwiseMul a b).

(** The model vector after
<<
    if (!inputs.getWeights().isEmpty())
        vector *= inputs.getWeights();
>> *)
Definition weightedVector (vector : list R) (inputs : ModelInputHandler) : list R :=
  match _weights inputs with
  | Some (w0 :: w) => cwiseMul vector (w0 :: w)
  | _ => vector
  end.

(** [FitProfileAlgorithm::fitShapeletTerms], from the point where the loop
    over the convolved shapelet elements has accumulated the model in
    [vector] (that loop runs in the shapelet package; its result is the
    argument [vector]):
<<
    double variance = 1.0 / vector.squaredNorm();
    model.flux = vector.dot(inputs.getData());
    model.fluxErr = std::sqrt(variance);
>> *)
Definition fitShapeletTerms (vector : list R) (inputs : ModelInputHandler)
           (model : FitProfileModel) : FitProfileModel :=
  let vector := weightedVector vector inputs in
  let variance := 1 / dot vector vector in
  mkFitProfileModel (profile model) (dot vector (_data inputs)) (sqrt variance)
                    (ellipse model) (failed model).

(** The sum of squared residuals of the data against [a] times the model. *)
Definition residual (a : R) (vector data : list R) : R :=
  fold_right Rplus 0
    (map (fun p => (snd p - a * fst p) * (snd p - a * fst p)) (combine vector data)).

End Fit.

(* ================================================================== *)
(** * Theorems, Part I.  PackedIndex                                   *)
(* ================================================================== *)

Section PackedIndexFacts.

Import Packed.
Local Open Scope Z_scope.

Example traverse_order_2 :
  map (fun p => (getX p, getY p)) (traverse 10 2 origin)
  = [(0, 0); (0, 1); (1, 0); (0, 2); (1, 1); (2, 0)].
Proof. reflexivity. Qed.

Example computeIndex_1_1 : computeIndex 1 1 = 4.
Proof. reflexivity. Qed.

Example make_1_1 : make 1 1 = steps 4.
Proof. reflexivity. Qed.

Example incr_after_row_end : incr (make 2 0) = make 0 3.
Proof. reflexivity. Qed.

Lemma wrap32_small (z : Z) :
  -2147483648 <= z <= INT_MAX -> wrap32 z = z.
Proof.
  unfold wrap32, INT_MAX. intros Hz.
  rewrite Z.mod_small by lia. lia.
Qed.

Lemma wrap32_succ (z : Z) : wrap32 (wrap32 z + 1) = wrap32 (z + 1).
Proof.
  unfold wrap32.
  replace ((z + 2147483648) mod 4294967296 - 2147483648 + 1 + 2147483648)
    with ((z + 2147483648) mod 4294967296 + 1) by lia.
  replace (z + 1 + 2147483648) with ((z + 2147483648) + 1) by lia.
  rewrite Z.add_mod_idemp_l by lia. reflexivity.
Qed.

Lemma tri_double (n : Z) : 2 * tri n = n * (n + 1).
Proof.
  unfold tri.
  assert (H : (n * (n + 1)) mod 2 = 0).
  { rewrite Z.mul_mod by lia. rewrite Z.add_mod by lia.
    pose proof (Z.mod_pos_bound n 2 ltac:(lia)) as Hb.
    assert (Hc : n mod 2 = 0 \/ n mod 2 = 1) by lia.
    destruct Hc as [-> | ->]; reflexivity. }
  pose proof (Z.div_mod (n * (n + 1)) 2 ltac:(lia)). lia.
Qed.

Lemma tri_succ (n : Z) : tri (n + 1) = tri n + n + 1.
Proof.
  pose proof (tri_double n). pose proof (tri_double (n + 1)). nia.
Qed.

Lemma tri_0 : tri 0 = 0.
Proof. reflexivity. Qed.

Lemma basisSize_tri (M : Z) : basisSize M = tri (M + 1).
Proof. unfold basisSize, tri. f_equal. ring. Qed.

Lemma tri_mono (n m : Z) : 0 <= n <= m -> tri n <= tri m.
Proof.
  intros H. pose proof (tri_double n). pose proof (tri_double m). nia.
Qed.

Lemma tri_nonneg (n : Z) : 0 <= n -> 0 <= tri n.
Proof. intros H. pose proof (tri_double n). nia. Qed.

(** Every step count has a (row, column) decomposition. *)
Lemma tri_decompose (k : Z) :
  0 <= k -> exists n x, 0 <= x <= n /\ k = tri n + x.
Proof.
  revert k. apply (natlike_ind (fun k => exists n x, 0 <= x <= n /\ k = tri n + x)).
  - exists 0, 0. rewrite tri_0. lia.
  - intros k Hk (n & x & Hx & ->).
    destruct (Z.eq_dec x n) as [-> | Hne].
    + exists (n + 1), 0. rewrite tri_succ. lia.
    + exists n, (x + 1). lia.
Qed.

Lemma steps_0 : steps 0 = origin.
Proof. reflexivity. Qed.

Lemma steps_succ (k : Z) : 0 <= k -> steps (k + 1) = incr (steps k).
Proof.
  intros Hk. unfold steps.
  replace (Z.to_N (k + 1)) with (N.succ (Z.to_N k)) by lia.
  apply N.iter_succ.
Qed.

(** One increment inside a row, and one increment across a row boundary. *)
Lemma incr_inside (n i x : Z) :
  0 <= x < n -> n <= INT_MAX ->
  incr (mkPackedIndex n (wrap32 i) x (n - x))
  = mkPackedIndex n (wrap32 (i + 1)) (x + 1) (n - (x + 1)).
Proof.
  unfold INT_MAX. intros Hx Hn. unfold incr. cbn [_n _i _x _y].
  rewrite wrap32_succ.
  rewrite (wrap32_small (n - x - 1)) by (unfold INT_MAX; lia).
  destruct (Z.ltb_spec (n - x - 1) 0) as [Hlt | Hge]; [lia |].
  rewrite (wrap32_small (x + 1)) by (unfold INT_MAX; lia).
  f_equal. lia.
Qed.

Lemma incr_boundary (n i : Z) :
  0 <= n < INT_MAX ->
  incr (mkPackedIndex n (wrap32 i) n (n - n))
  = mkPackedIndex (n + 1) (wrap32 (i + 1)) 0 (n + 1 - 0).
Proof.
  unfold INT_MAX. intros Hn. unfold incr. cbn [_n _i _x _y].
  rewrite wrap32_succ.
  replace (n - n - 1) with (-1) by lia.
  rewrite (wrap32_small (-1)) by (unfold INT_MAX; lia).
  cbn [Z.ltb Z.compare].
  rewrite (wrap32_small (n + 1)) by (unfold INT_MAX; lia).
  f_equal. lia.
Qed.

(** Walking along row [n] from its first column. *)
Lemma steps_row (n : Z) :
  0 <= n <= INT_MAX ->
  steps (tri n) = mkPackedIndex n (wrap32 (tri n)) 0 n ->
  forall x, 0 <= x <= n ->
  steps (tri n + x) = mkPackedIndex n (wrap32 (tri n + x)) x (n - x).
Proof.
  intros Hn Hrow x [Hx0 Hx]. revert Hx. pattern x.
  apply natlike_ind; [ | | exact Hx0 ]; clear x Hx0.
  - intros _. rewrite Z.add_0_r, Z.sub_0_r. exact Hrow.
  - intros x Hx0 IH Hx. unfold Z.succ in *.
    pose proof (tri_nonneg n ltac:(lia)).
    replace (tri n + (x + 1)) with ((tri n + x) + 1) by lia.
    rewrite steps_succ by lia.
    rewrite (IH ltac:(lia)).
    apply incr_inside; lia.
Qed.

(** Closed form of the iteration: after [tri n + x] increments the index
    sits at column [x] of row [n]; only [_i] is subject to wrap-around. *)
Lemma steps_closed (n : Z) :
  0 <= n <= INT_MAX ->
  forall x, 0 <= x <= n ->
  steps (tri n + x) = mkPackedIndex n (wrap32 (tri n + x)) x (n - x).
Proof.
  intros [Hn0 Hn]. revert Hn. pattern n.
  apply natlike_ind; [ | | exact Hn0 ]; clear n Hn0.
  - intros _ x Hx. assert (x = 0) by lia. subst x. reflexivity.
  - intros n Hn0 IH Hn. unfold Z.succ in *.
    apply steps_row; [lia |].
    rewrite tri_succ.
    pose proof (tri_nonneg n Hn0).
    replace (tri n + n + 1) with ((tri n + n) + 1) by lia.
    rewrite steps_succ by lia.
    rewrite (IH ltac:(lia) n ltac:(lia)).
    rewrite incr_boundary by lia.
    f_equal. lia.
Qed.

(** Inside the first [tri 65535] steps nothing wraps. *)
Lemma steps_exact (n x : Z) :
  0 <= x <= n -> n <= 65534 ->
  steps (tri n + x) = mkPackedIndex n (tri n + x) x (n - x).
Proof.
  intros Hx Hn. rewrite steps_closed by (unfold INT_MAX; lia).
  rewrite wrap32_small; [reflexivity |].
  pose proof (tri_nonneg n ltac:(lia)).
  pose proof (tri_mono n 65534 ltac:(lia)) as Hm.
  change (tri 65534) with 2147385345 in Hm.
  unfold INT_MAX. lia.
Qed.

(** A step count below the basis size lies in a row of order at most [M]. *)
Lemma tri_decompose_below (M k : Z) :
  0 <= M -> 0 <= k < basisSize M ->
  exists n x, 0 <= x <= n /\ n <= M /\ k = tri n + x.
Proof.
  intros HM [Hk0 Hk]. destruct (tri_decompose k Hk0) as (n & x & Hx & ->).
  exists n, x. repeat split; try lia.
  rewrite basisSize_tri in Hk.
  destruct (Z_le_gt_dec n M) as [Hle | Hgt]; [exact Hle | exfalso].
  pose proof (tri_mono (M + 1) n ltac:(lia)). lia.
Qed.

(** The traversal loop collects the states [steps k], [steps (k+1)], ...
    for as long as the order stays within [order]. *)
Lemma traverse_steps (order : Z) (m : nat) :
  forall (k : Z) (fuel : nat),
  0 <= k ->
  (forall j, k <= j < k + Z.of_nat m -> getOrder (steps j) <= order) ->
  order < getOrder (steps (k + Z.of_nat m)) ->
  (m < fuel)%nat ->
  traverse fuel order (steps k)
  = map (fun t => steps (k + Z.of_nat t)) (seq 0 m).
Proof.
  induction m as [| m IH]; intros k fuel Hk Hin Hout Hfuel.
  - destruct fuel as [| fuel]; [lia |]. cbn [traverse seq map].
    rewrite Z.add_0_r in Hout.
    destruct (Z.leb_spec (getOrder (steps k)) order); [lia | reflexivity].
  - destruct fuel as [| fuel]; [lia |]. cbn [traverse seq map].
    pose proof (Hin k ltac:(lia)) as Hk'.
    destruct (Z.leb_spec (getOrder (steps k)) order); [| lia].
    rewrite Z.add_0_r. f_equal.
    rewrite <- steps_succ by lia.
    rewrite (IH (k + 1) fuel); try lia.
    + rewrite <- seq_shift, map_map. apply map_ext.
      intros t. f_equal. lia.
    + intros j Hj. apply Hin. lia.
    + replace (k + 1 + Z.of_nat m) with (k + Z.of_nat (S m)) by lia. exact Hout.
Qed.

(** C6 (as amended): for every order [M] between 0 and 65534, repeated
    increment from the default index visits the pair [(x, n-x)] of row [n]
    after exactly [n(n+1)/2 + x] steps, for every [0 <= x <= n <= M]: rows by
    increasing order, and inside a row [x] increasing and [y] decreasing.
    Each of the first [(M+1)(M+2)/2] states has order at most [M] and index
    equal to its step number, which is [(x+y)(x+y+1)/2 + x]; the next state
    has order [M+1]; and the documented loop collects exactly the indices
    [0 .. (M+1)(M+2)/2 - 1], once each and in order. *)
Theorem PackedIndex_enumeration (M : Z) :
  0 <= M <= 65534 ->
  (forall n x, 0 <= x <= n -> n <= M ->
     steps (tri n + x) = mkPackedIndex n (tri n + x) x (n - x))
  /\ (forall k, 0 <= k < basisSize M ->
        getOrder (steps k) <= M
        /\ getX (steps k) + getY (steps k) = getOrder (steps k)
        /\ 0 <= getX (steps k) /\ 0 <= getY (steps k)
        /\ getIndex (steps k) = k
        /\ getIndex (steps k)
           = (getX (steps k) + getY (steps k))
             * (getX (steps k) + getY (steps k) + 1) / 2 + getX (steps k))
  /\ getOrder (steps (basisSize M)) = M + 1
  /\ (forall fuel, basisSize M < Z.of_nat fuel ->
        map getIndex (traverse fuel M origin)
        = map Z.of_nat (seq 0 (Z.to_nat (basisSize M)))).
Proof.
  intros HM.
  assert (Hstate : forall k, 0 <= k < basisSize M ->
            exists n x, 0 <= x <= n /\ n <= M /\ k = tri n + x
                        /\ steps k = mkPackedIndex n k x (n - x)).
  { intros k Hk. destruct (tri_decompose_below M k ltac:(lia) Hk) as (n & x & Hx & Hn & ->).
    exists n, x. repeat split; try lia. apply steps_exact; lia. }
  assert (Hnext : steps (basisSize M) = mkPackedIndex (M + 1) (wrap32 (tri (M + 1))) 0 (M + 1)).
  { rewrite basisSize_tri.
    pose proof (steps_closed (M + 1) ltac:(unfold INT_MAX; lia) 0 ltac:(lia)) as H.
    rewrite Z.add_0_r, Z.sub_0_r in H. exact H. }
  assert (HK : 0 <= basisSize M).
  { rewrite basisSize_tri. apply tri_nonneg. lia. }
  split; [| split; [| split]].
  - intros n x Hx Hn. apply steps_exact; lia.
  - intros k Hk. destruct (Hstate k Hk) as (n & x & Hx & Hn & Hkeq & ->).
    unfold getOrder, getX, getY, getIndex. cbn [_n _i _x _y].
    replace (x + (n - x)) with n by lia.
    repeat split; try lia. exact Hkeq.
  - rewrite Hnext. reflexivity.
  - intros fuel Hfuel.
    change origin with (steps 0).
    rewrite (traverse_steps M (Z.to_nat (basisSize M)) 0 fuel); try lia.
    + rewrite map_map. apply map_ext_in. intros t Ht. apply in_seq in Ht.
      destruct (Hstate (0 + Z.of_nat t) ltac:(lia)) as (n & x & _ & _ & _ & ->).
      unfold getIndex. cbn [_i]. lia.
    + intros j Hj. destruct (Hstate j ltac:(lia)) as (n & x & _ & Hn & _ & ->).
      exact Hn.
    + replace (0 + Z.of_nat (Z.to_nat (basisSize M))) with (basisSize M) by lia.
      rewrite Hnext. unfold getOrder. cbn [_n]. lia.
Qed.

(** Witness of C6 at order 2 (six basis functions). *)
Lemma PackedIndex_enumeration_witness :
  0 <= 2 <= 65534
  /\ map getIndex (traverse 7 2 origin) = [0; 1; 2; 3; 4; 5].
Proof.
  split; [lia |].
  exact (proj2 (proj2 (proj2 (PackedIndex_enumeration 2 ltac:(lia)))) 7%nat ltac:(vm_compute; reflexivity)).
Defined.

(** C6 (counterexample to the claim at order 65535): the state reached
    after 2^31 increments still has order 65535, at [(x, y) = (32768, 32767)],
    but its [int] index has wrapped around to -2^31 and is not
    [(x+y)(x+y+1)/2 + x = 2^31]. *)
Lemma PackedIndex_enumeration_fails_at_65535 :
  0 <= 2147483648 < basisSize 65535
  /\ getOrder (steps 2147483648) = 65535
  /\ getX (steps 2147483648) = 32768
  /\ getY (steps 2147483648) = 32767
  /\ getIndex (steps 2147483648) = -2147483648
  /\ getIndex (steps 2147483648)
     <> (getX (steps 2147483648) + getY (steps 2147483648))
        * (getX (steps 2147483648) + getY (steps 2147483648) + 1) / 2
        + getX (steps 2147483648).
Proof.
  pose proof (steps_closed 65535 ltac:(unfold INT_MAX; lia) 32768 ltac:(lia)) as H.
  change (tri 65535 + 32768) with 2147483648 in H.
  rewrite H. unfold getOrder, getX, getY, getIndex. cbn [_n _i _x _y].
  change (wrap32 2147483648) with (-2147483648).
  change (basisSize 65535) with 2147516416.
  repeat split; try lia.
  change ((32768 + (65535 - 32768)) * (32768 + (65535 - 32768) + 1) / 2 + 32768)
    with 2147483648.
  lia.
Qed.

End PackedIndexFacts.

(* ================================================================== *)
(** * Theorems, Part II.  ModelInputHandler                            *)
(* ================================================================== *)

Section HandlerFacts.

Import Afw Handler.

Example clipTo_cuts_and_drops :
  clipTo (mkBox2I 0 0 4 0) [mkSpan 0 (-2) 2; mkSpan 1 0 3; mkSpan 0 7 9]
  = [mkSpan 0 0 2].
Proof. reflexivity. Qed.

Example normalize_sorts_and_merges :
  normalize [mkSpan 1 0 3; mkSpan 0 3 5; mkSpan 0 0 2] = [mkSpan 0 0 5; mkSpan 1 0 3].
Proof. reflexivity. Qed.

Example intersectMask_splits_at_bad_pixel :
  intersectMask
    (mkImage (0, 0)%Z (mkArray2 1 5 (fun _ c => if (c =? 2)%nat then 4%Z else 0%Z)))
    4 [mkSpan 0 (-1) 7]
  = [mkSpan 0 0 1; mkSpan 0 3 4].
Proof. reflexivity. Qed.

Example ofImageBox_outside_the_image :
  ofImageBox rowImage (0, 0)%R (mkBox2I 10 10 12 12)
  = Some (mkModelInputHandler [] [] [] [] None).
Proof. reflexivity. Qed.

Example ofMaskedImageBox_larger_than_the_image :
  ofMaskedImageBox twoPixelMasked (0, 0)%R (mkBox2I (-1) (-1) 5 5) 0 true
  = Some (mkModelInputHandler [mkSpan 0 0 1]
            [IZR 0 - 0; IZR 1 - 0]%R [IZR 0 - 0; IZR 0 - 0]%R
            [3 * / sqrt 1; 5 * / sqrt 4]%R
            (Some [/ sqrt 1; / sqrt 4]%R)).
Proof. reflexivity. Qed.

Lemma zrange_nil (lo hi : Z) : (hi < lo)%Z -> zrange lo hi = [].
Proof.
  intros H. unfold zrange. replace (Z.to_nat (hi - lo + 1)) with O by lia.
  reflexivity.
Qed.

Lemma zrange_cons (lo hi : Z) :
  (lo <= hi)%Z -> zrange lo hi = lo :: zrange (lo + 1) hi.
Proof.
  intros H. unfold zrange.
  replace (Z.to_nat (hi - lo + 1)) with (S (Z.to_nat (hi - (lo + 1) + 1))) by lia.
  cbn [seq map]. f_equal; [lia |].
  rewrite <- seq_shift, map_map. apply map_ext. intros k. lia.
Qed.

Lemma zrange_In (lo hi x : Z) : In x (zrange lo hi) <-> (lo <= x <= hi)%Z.
Proof.
  unfold zrange. rewrite in_map_iff. split.
  - intros (k & <- & Hk). apply in_seq in Hk. lia.
  - intros Hx. exists (Z.to_nat (x - lo)). split; [lia |].
    apply in_seq. lia.
Qed.

Lemma zrange_length (lo hi : Z) : length (zrange lo hi) = Z.to_nat (hi - lo + 1).
Proof. unfold zrange. rewrite length_map, length_seq. reflexivity. Qed.

Lemma mapM_total {A B : Type} (f : A -> option B) (g : A -> B) (l : list A) :
  (forall a, In a l -> f a = Some (g a)) -> mapM f l = Some (map g l).
Proof.
  induction l as [| a l IH]; intros H; cbn [mapM map]; [reflexivity |].
  rewrite (H a (or_introl eq_refl)), IH; [reflexivity |].
  intros a' Ha'. apply H. right. exact Ha'.
Qed.

(** *** Footprints inside a box *)

Lemma spanInside_pixels (b : Box2I) (s : Span) (p : Z * Z) :
  spanInside b s -> In p (spanPixels s) -> contains b (fst p) (snd p) = true.
Proof.
  unfold spanInside, spanPixels, contains. intros Hs Hp.
  apply in_map_iff in Hp. destruct Hp as (x & <- & Hx).
  apply zrange_In in Hx. cbn [fst snd].
  repeat (apply andb_true_intro; split); apply Z.leb_le; lia.
Qed.

Lemma inside_pixels (b : Box2I) (fp : Footprint) :
  Forall (spanInside b) fp ->
  Forall (fun p => contains b (fst p) (snd p) = true) (pixels fp).
Proof.
  intros H. apply Forall_forall. intros p Hp. unfold pixels in Hp.
  apply in_flat_map in Hp. destruct Hp as (s & Hs & Hp).
  rewrite Forall_forall in H. eapply spanInside_pixels; eauto.
Qed.

Lemma inside_area (b : Box2I) (fp : Footprint) :
  Forall (spanInside b) fp -> getArea fp = Z.of_nat (length (pixels fp)).
Proof.
  induction 1 as [| s fp Hs _ IH]; [reflexivity |].
  cbn [getArea pixels flat_map fold_right]. fold (getArea fp). fold (pixels fp).
  rewrite length_app, IH. unfold spanPixels. rewrite length_map, zrange_length.
  unfold spanInside in Hs. lia.
Qed.

Lemma clipSpan_inside (b : Box2I) (s s' : Span) :
  In s' (clipSpan b s) -> spanInside b s'.
Proof.
  unfold clipSpan, spanInside.
  destruct (Z.ltb_spec (getY s) (getMinY b)); cbn [orb]; [intros [] |].
  destruct (Z.ltb_spec (getMaxY b) (getY s)); [intros [] |].
  destruct (Z.ltb_spec (Z.min (getX1 s) (getMaxX b)) (Z.max (getX0 s) (getMinX b)));
    [intros [] |].
  intros [<- | []]. cbn [getY getX0 getX1]. lia.
Qed.

Lemma clipTo_inside (b : Box2I) (fp : Footprint) :
  Forall (spanInside b) (clipTo b fp).
Proof.
  apply Forall_forall. intros s' Hs'. unfold clipTo in Hs'.
  apply in_flat_map in Hs'. destruct Hs' as (s & _ & Hs').
  eapply clipSpan_inside; eauto.
Qed.

(** Runs of good pixels cut from the columns [lo..hi] of a span inside the
    box stay inside the box. *)
Lemma goodRuns_inside (b : Box2I) (good : Z -> bool) (y hi : Z) (n : nat) :
  (getMinY b <= y <= getMaxY b)%Z -> (hi <= getMaxX b)%Z ->
  forall lo cur,
  n = Z.to_nat (hi - lo + 1) ->
  (getMinX b <= lo)%Z ->
  (forall a c, cur = Some (a, c) ->
               getMinX b <= a /\ a <= c /\ c < lo /\ c <= getMaxX b)%Z ->
  Forall (spanInside b) (goodRuns good y (zrange lo hi) cur).
Proof.
  intros Hy Hhi. induction n as [| n IH]; intros lo cur Hn Hlo Hcur.
  - rewrite zrange_nil by lia. cbn [goodRuns].
    destruct cur as [[a c] |]; cbn [flushRun]; [| constructor].
    destruct (Hcur a c eq_refl) as (Ha & Hac & Hc & Hc').
    constructor; [| constructor]. unfold spanInside. cbn [getY getX0 getX1]. lia.
  - rewrite zrange_cons by lia. cbn [goodRuns].
    destruct (good lo).
    + apply IH; try lia.
      intros a c Heq. destruct cur as [[a' c'] |]; inversion Heq; subst.
      * destruct (Hcur a c' eq_refl) as (Ha & Hac & Hc & Hc'). lia.
      * lia.
    + apply Forall_app. split.
      * destruct cur as [[a c] |]; cbn [flushRun]; [| constructor].
        destruct (Hcur a c eq_refl) as (Ha & Hac & Hc & Hc').
        constructor; [| constructor]. unfold spanInside. cbn [getY getX0 getX1]. lia.
      * apply IH; try lia. intros a c Heq. discriminate Heq.
Qed.

Lemma intersectMask_inside (mask : Image Z) (bitmask : Z) (fp : Footprint) :
  Forall (spanInside (getBBox mask)) (intersectMask mask bitmask fp).
Proof.
  apply Forall_forall. intros s' Hs'. unfold intersectMask in Hs'.
  apply in_flat_map in Hs'. destruct Hs' as (s & _ & Hs').
  unfold maskSpan in Hs'. apply in_flat_map in Hs'. destruct Hs' as (c & Hc & Hs').
  apply clipSpan_inside in Hc. unfold spanInside in Hc.
  revert s' Hs'. apply Forall_forall.
  eapply goodRuns_inside; try reflexivity; try lia.
  intros a c' Heq. discriminate Heq.
Qed.

(** *** Extraction under a footprint inside the image *)

Lemma getElem_inside {A : Type} (arr : Array2 A) (xy0 : Z * Z) (p : Z * Z) :
  contains (getBBox (mkImage xy0 arr)) (fst p) (snd p) = true ->
  getElem arr (snd p - snd xy0) (fst p - fst xy0) = Some (pixelAt arr xy0 p).
Proof.
  unfold contains, getBBox, getElem, pixelAt. destruct xy0 as [x0 y0].
  cbn [getXY0 getArray getMinX getMinY getMaxX getMaxY fst snd].
  intros H. repeat (apply andb_prop in H; destruct H as [H ?]).
  rewrite Z.leb_le in *.
  replace ((0 <=? snd p - y0)%Z) with true by (symmetry; apply Z.leb_le; lia).
  replace ((snd p - y0 <? Z.of_nat (size0 arr))%Z) with true
    by (symmetry; apply Z.ltb_lt; lia).
  replace ((0 <=? fst p - x0)%Z) with true by (symmetry; apply Z.leb_le; lia).
  replace ((fst p - x0 <? Z.of_nat (size1 arr))%Z) with true
    by (symmetry; apply Z.ltb_lt; lia).
  reflexivity.
Qed.

Lemma flattenArray_inside {A : Type} (fp : Footprint) (arr : Array2 A) (xy0 : Z * Z) :
  Forall (spanInside (getBBox (mkImage xy0 arr))) fp ->
  flattenArray fp arr xy0 = Some (map (pixelAt arr xy0) (pixels fp)).
Proof.
  intros H. unfold flattenArray. apply mapM_total. intros p Hp.
  apply getElem_inside.
  pose proof (inside_pixels _ _ H) as Hin. rewrite Forall_forall in Hin.
  apply Hin. exact Hp.
Qed.

Lemma initCoords_pixels (fp : Footprint) (center : R * R) :
  initCoords fp center
  = (map (fun p => (IZR (fst p) - fst center)%R) (pixels fp),
     map (fun p => (IZR (snd p) - snd center)%R) (pixels fp)).
Proof.
  unfold initCoords, pixels. f_equal.
  - induction fp as [| s fp IH]; [reflexivity |].
    cbn [flat_map]. rewrite map_app, IH. f_equal.
    unfold spanPixels. rewrite map_map. reflexivity.
  - induction fp as [| s fp IH]; [reflexivity |].
    cbn [flat_map]. rewrite map_app, IH. f_equal.
    unfold spanPixels. rewrite map_map. reflexivity.
Qed.


Lemma getBBox_eta {A : Type} (im : Image A) :
  getBBox (mkImage (getXY0 im) (getArray im)) = getBBox im.
Proof. destruct im. reflexivity. Qed.

(** The two plain-image constructors, once the footprint before clipping is
    known. *)
Lemma ofImage_clipped (image : Image R) (center : R * R) (fp0 : Footprint) :
  let fp := clipTo (getBBox image) fp0 in
  match flattenArray fp (getArray image) (getXY0 image) with
  | None => None
  | Some data =>
      let '(x, y) := initCoords fp center in
      Some (mkModelInputHandler fp x y data None)
  end
  = Some (mkModelInputHandler fp
            (map (fun p => (IZR (fst p) - fst center)%R) (pixels fp))
            (map (fun p => (IZR (snd p) - snd center)%R) (pixels fp))
            (map (pixelAt (getArray image) (getXY0 image)) (pixels fp))
            None).
Proof.
  intros fp. rewrite flattenArray_inside.
  - rewrite initCoords_pixels. reflexivity.
  - rewrite getBBox_eta. apply clipTo_inside.
Qed.



Lemma applyWeightsStrict_total (u : bool) (data variance : list R) (r : list R * list R) :
  applyWeightsStrict u data variance = Some r -> r = applyWeights u data variance.
Proof.
  unfold applyWeightsStrict, applyWeights. destruct u.
  - intros H. injection H as <-. reflexivity.
  - destruct variance as [| v0 variance]; cbn [meanDefined]; [discriminate |].
    intros H. injection H as <-. reflexivity.
Qed.

Lemma applyWeightsStrict_undefined (u : bool) (data variance : list R) :
  applyWeightsStrict u data variance = None <-> u = false /\ variance = [].
Proof.
  unfold applyWeightsStrict. destruct u.
  - split; [discriminate | intros [H _]; discriminate H].
  - destruct variance as [| v0 variance]; cbn [meanDefined].
    + split; [intros _; split; reflexivity | reflexivity].
    + split; [discriminate | intros [_ H]; discriminate H].
Qed.

(** The strict constructor refines [ofMasked]: where it is defined, the
    two agree. *)
Lemma ofMaskedStrict_refines (image : MaskedImage) (center : R * R) (fp0 : Footprint)
      (badPixelMask : Z) (usePixelWeights : bool) (h : ModelInputHandler) :
  ofMaskedStrict image center fp0 badPixelMask usePixelWeights = Some h ->
  ofMasked image center fp0 badPixelMask usePixelWeights = Some h.
Proof.
  unfold ofMaskedStrict, ofMasked.
  destruct (flattenArray _ (getArray (getImage image)) _) as [data |]; [| discriminate].
  destruct (flattenArray _ (getArray (getVariance image)) _) as [variance |];
    [| discriminate].
  destruct (applyWeightsStrict usePixelWeights data variance) as [r |] eqn:E;
    [| discriminate].
  apply applyWeightsStrict_total in E. subst r.
  destruct (applyWeights usePixelWeights data variance) as [d w].
  intros H. exact H.
Qed.

(** The strict constructor is undefined exactly when [usePixelWeights] is
    false and no pixel of the region is left after [intersectMask]. *)
Lemma ofMaskedStrict_undefined (image : MaskedImage) (center : R * R) (fp0 : Footprint)
      (badPixelMask : Z) (usePixelWeights : bool) :
  ofMaskedStrict image center fp0 badPixelMask usePixelWeights = None
  <-> usePixelWeights = false
      /\ pixels (intersectMask (getMask image) badPixelMask fp0) = [].
Proof.
  unfold ofMaskedStrict.
  pose proof (intersectMask_inside (getMask image) badPixelMask fp0) as Hin.
  set (fp := intersectMask (getMask image) badPixelMask fp0) in *.
  rewrite (flattenArray_inside fp (getArray (getImage image)) (miXY0 image)) by exact Hin.
  rewrite (flattenArray_inside fp (getArray (getVariance image)) (miXY0 image)) by exact Hin.
  destruct (applyWeightsStrict usePixelWeights _ _) as [[d w] |] eqn:E.
  - destruct (initCoords fp center) as [x y]. split; [discriminate |].
    intros [Hu Hp].
    assert (Hn : applyWeightsStrict usePixelWeights
                   (map (pixelAt (getArray (getImage image)) (miXY0 image)) (pixels fp))
                   (map (pixelAt (getArray (getVariance image)) (miXY0 image)) (pixels fp))
                 = None).
    { apply applyWeightsStrict_undefined. rewrite Hp. split; [exact Hu | reflexivity]. }
    rewrite Hn in E. discriminate E.
  - apply applyWeightsStrict_undefined in E. destruct E as [Hu Hv].
    split; [intros _ | reflexivity]. split; [exact Hu |].
    destruct (pixels fp); [reflexivity | discriminate Hv].
Qed.

(** C3 (what the code does at the failing inputs): a masked image of two
    pixels, [usePixelWeights = false], and a region of which nothing is left:
    a box that lies off the image, or a box whose pixels are all masked bad.
    The working footprint is empty, and the constructor calls [mean()] on
    the empty variance array, which has no defined result, instead of
    producing length-0 arrays.  With [usePixelWeights = true] the same
    inputs give the empty handler, and the plain-image constructor, which
    clips with [clipTo], gives the empty handler for the box off the
    image; on a box that covers the image the masked constructor extracts
    both pixels. *)
Theorem empty_masked_extraction_is_undefined :
  pixels (intersectMask (getMask twoPixelMasked) 0 (ofBox (mkBox2I 5 5 6 6))) = []
  /\ ofMaskedImageBoxStrict twoPixelMasked (0, 0)%R (mkBox2I 5 5 6 6) 0 false = None
  /\ ofMaskedImageBoxStrict twoPixelMasked (0, 0)%R (mkBox2I 5 5 6 6) 0 true
     = Some (mkModelInputHandler [] [] [] [] (Some []))
  /\ ofImageBox (getImage twoPixelMasked) (0, 0)%R (mkBox2I 5 5 6 6)
     = Some (mkModelInputHandler [] [] [] [] None)
  /\ pixels (intersectMask (getMask allBadMasked) 1 (ofBox (mkBox2I 0 0 1 0))) = []
  /\ ofMaskedImageBoxStrict allBadMasked (0, 0)%R (mkBox2I 0 0 1 0) 1 false = None
  /\ ofMaskedImageBoxStrict allBadMasked (0, 0)%R (mkBox2I 0 0 1 0) 1 true
     = Some (mkModelInputHandler [] [] [] [] (Some []))
  /\ ofMaskedImageFootprintStrict (fun fp _ => fp) allBadMasked (0, 0)%R
                                  [mkSpan 0 0 1] 0 1 false = None
  /\ (exists h,
        ofMaskedImageBoxStrict twoPixelMasked (0, 0)%R (mkBox2I (-1) (-1) 5 5) 0 false
        = Some h
        /\ _footprint h = [mkSpan 0 0 1]
        /\ length (_data h) = 2%nat /\ length (_x h) = 2%nat).
Proof.
  assert (H1 : pixels (intersectMask (getMask twoPixelMasked) 0 (ofBox (mkBox2I 5 5 6 6)))
               = []) by reflexivity.
  assert (H2 : pixels (intersectMask (getMask allBadMasked) 1 (ofBox (mkBox2I 0 0 1 0)))
               = []) by reflexivity.
  assert (H3 : pixels (intersectMask (getMask allBadMasked) 1 [mkSpan 0 0 1]) = [])
    by reflexivity.
  split; [exact H1 |]. split.
  { apply ofMaskedStrict_undefined. split; [reflexivity | exact H1]. }
  split; [reflexivity |]. split; [reflexivity |].
  split; [exact H2 |]. split.
  { apply ofMaskedStrict_undefined. split; [reflexivity | exact H2]. }
  split; [reflexivity |]. split.
  { apply (ofMaskedStrict_undefined allBadMasked (0, 0)%R [mkSpan 0 0 1] 1 false).
    split; [reflexivity | exact H3]. }
  eexists. split; [reflexivity |]. repeat split.
Qed.

(** C9: over a plain image and a footprint, the handler holds, for the
    clipped footprint in row-major span order, the pixel coordinates minus the
    center in [_x] and [_y], the pixel values in [_data], all of one length,
    and no weight array.  In the scenario (one span y=0, x=0..4, center (2,0),
    image values 1..5) this gives x = [-2,-1,0,1,2], y = [0,0,0,0,0] and
    data = [1,2,3,4,5]. *)
Theorem image_footprint_extraction
        (growFootprint : Footprint -> Z -> Footprint) :
  (forall (image : Image R) (center : R * R) (region : Footprint) (grow : Z),
     exists h,
       ofImageFootprint growFootprint image center region grow = Some h
       /\ _footprint h
          = clipTo (getBBox image)
                   (if (grow =? 0)%Z then region else growFootprint region grow)
       /\ _x h = map (fun p => (IZR (fst p) - fst center)%R) (pixels (_footprint h))
       /\ _y h = map (fun p => (IZR (snd p) - snd center)%R) (pixels (_footprint h))
       /\ _data h = map (pixelAt (getArray image) (getXY0 image)) (pixels (_footprint h))
       /\ length (_x h) = length (_data h)
       /\ length (_y h) = length (_data h)
       /\ _weights h = None)
  /\ ofImageFootprint growFootprint rowImage (2, 0)%R [mkSpan 0 0 4] 0
     = Some (mkModelInputHandler [mkSpan 0 0 4]
               [-2; -1; 0; 1; 2]%R [0; 0; 0; 0; 0]%R [1; 2; 3; 4; 5]%R None).
Proof.
  split.
  - intros image center region grow. eexists.
    split; [apply ofImage_clipped |]. cbn [_footprint _x _y _data _weights].
    rewrite !length_map. repeat split; reflexivity.
  - unfold ofImageFootprint. cbn [Z.eqb]. rewrite ofImage_clipped.
    replace (clipTo (getBBox rowImage) [mkSpan 0 0 4]) with [mkSpan 0 0 4]
      by (vm_compute; reflexivity).
    replace (pixels [mkSpan 0 0 4])
      with [(0, 0); (1, 0); (2, 0); (3, 0); (4, 0)]%Z by (vm_compute; reflexivity).
    unfold pixelAt, rowImage.
    cbn [map fst snd getArray getXY0 elem Z.sub Z.to_nat Z.opp Pos.to_nat
         Pos.iter_op Nat.add nth Z.pos_sub].
    repeat f_equal; lra.
Qed.






End HandlerFacts.

(* ================================================================== *)
(** * Theorems, Part III.  GaussianModelBuilder                        *)
(* ================================================================== *)

Section BuilderFacts.

Import Afw Builder.
Local Open Scope R_scope.

(** *** One guarded multiply-add, one column, all columns *)

Lemma guarded_colAdd (c : bool) (out : Array2 R) (n : nat) (v : nat -> R) :
  (n < size1 out)%nat ->
  exists out',
    (if c then colAdd out n v else Some out) = Some out'
    /\ size0 out' = size0 out /\ size1 out' = size1 out
    /\ forall i p, elem out' i p
                   = elem out i p
                     + (if ((p =? n) && (i <? size0 out))%nat
                        then (if c then v i else 0) else 0).
Proof.
  intros Hn. destruct c.
  - unfold colAdd. apply Nat.ltb_lt in Hn. rewrite Hn.
    eexists. split; [reflexivity |]. cbn [size0 size1 elem].
    repeat split. intros i p.
    destruct ((p =? n) && (i <? size0 out))%nat; lra.
  - exists out. repeat split. intros i p.
    destruct ((p =? n) && (i <? size0 out))%nat; lra.
Qed.

Lemma columnBody_adds (b : GaussianModelBuilder) (j : Jacobian) (eps : R) :
  addsToColumn (columnBody b j eps) (fun i n => keptSum b j eps i n).
Proof.
  intros n out Hn. unfold columnBody.
  destruct (guarded_colAdd (exceeds eps (coeff j XX n)) out n
              (fun i => coeff j XX n * col0 (_xy b) i * dfdx b i) Hn)
    as (o1 & -> & Hr1 & Hc1 & He1).
  cbn [bind]. rewrite <- Hc1 in Hn.
  destruct (guarded_colAdd (exceeds eps (coeff j XY n)) o1 n
              (fun i => coeff j XY n * col1 (_xy b) i * dfdx b i) Hn)
    as (o2 & -> & Hr2 & Hc2 & He2).
  cbn [bind]. rewrite <- Hc2 in Hn.
  destruct (guarded_colAdd (exceeds eps (coeff j X n)) o2 n
              (fun i => coeff j X n * dfdx b i) Hn)
    as (o3 & -> & Hr3 & Hc3 & He3).
  cbn [bind]. rewrite <- Hc3 in Hn.
  destruct (guarded_colAdd (exceeds eps (coeff j YX n)) o3 n
              (fun i => coeff j YX n * col0 (_xy b) i * dfdy b i) Hn)
    as (o4 & -> & Hr4 & Hc4 & He4).
  cbn [bind]. rewrite <- Hc4 in Hn.
  destruct (guarded_colAdd (exceeds eps (coeff j YY n)) o4 n
              (fun i => coeff j YY n * col1 (_xy b) i * dfdy b i) Hn)
    as (o5 & -> & Hr5 & Hc5 & He5).
  cbn [bind]. rewrite <- Hc5 in Hn.
  destruct (guarded_colAdd (exceeds eps (coeff j Y n)) o5 n
              (fun i => coeff j Y n * dfdy b i) Hn)
    as (o6 & -> & Hr6 & Hc6 & He6).
  exists o6. split; [reflexivity |].
  split; [congruence |]. split; [congruence |].
  intros i p. rewrite He6, He5, He4, He3, He2, He1.
  rewrite Hr5, Hr4, Hr3, Hr2, Hr1.
  unfold keptSum, allParams, affinePartial. cbn [map fold_right].
  destruct ((p =? n) && (i <? size0 out))%nat; [| lra].
  destruct (exceeds eps (coeff j XX n)), (exceeds eps (coeff j XY n)),
           (exceeds eps (coeff j X n)), (exceeds eps (coeff j YX n)),
           (exceeds eps (coeff j YY n)), (exceeds eps (coeff j Y n)); ring.
Qed.

Lemma columnBodyAllTerms_adds (b : GaussianModelBuilder) (j : Jacobian) :
  addsToColumn (columnBodyAllTerms b j) (fun i n => chainSum b j i n).
Proof.
  intros n out Hn. unfold columnBodyAllTerms.
  destruct (guarded_colAdd true out n
              (fun i => coeff j XX n * col0 (_xy b) i * dfdx b i) Hn)
    as (o1 & -> & Hr1 & Hc1 & He1).
  cbn [bind]. rewrite <- Hc1 in Hn.
  destruct (guarded_colAdd true o1 n
              (fun i => coeff j XY n * col1 (_xy b) i * dfdx b i) Hn)
    as (o2 & -> & Hr2 & Hc2 & He2).
  cbn [bind]. rewrite <- Hc2 in Hn.
  destruct (guarded_colAdd true o2 n (fun i => coeff j X n * dfdx b i) Hn)
    as (o3 & -> & Hr3 & Hc3 & He3).
  cbn [bind]. rewrite <- Hc3 in Hn.
  destruct (guarded_colAdd true o3 n
              (fun i => coeff j YX n * col0 (_xy b) i * dfdy b i) Hn)
    as (o4 & -> & Hr4 & Hc4 & He4).
  cbn [bind]. rewrite <- Hc4 in Hn.
  destruct (guarded_colAdd true o4 n
              (fun i => coeff j YY n * col1 (_xy b) i * dfdy b i) Hn)
    as (o5 & -> & Hr5 & Hc5 & He5).
  cbn [bind]. rewrite <- Hc5 in Hn.
  destruct (guarded_colAdd true o5 n (fun i => coeff j Y n * dfdy b i) Hn)
    as (o6 & -> & Hr6 & Hc6 & He6).
  exists o6. split; [reflexivity |].
  split; [congruence |]. split; [congruence |].
  intros i p. rewrite He6, He5, He4, He3, He2, He1.
  rewrite Hr5, Hr4, Hr3, Hr2, Hr1.
  unfold chainSum, allParams, affinePartial. cbn [map fold_right].
  destruct ((p =? n) && (i <? size0 out))%nat; ring.
Qed.

(** The loop over the columns [0 .. ncols-1] of an array that has them. *)
Lemma columnLoop_adds (body : nat -> Array2 R -> option (Array2 R))
      (F : nat -> nat -> R) (out : Array2 R) :
  addsToColumn body F ->
  forall ncols, (ncols <= size1 out)%nat ->
  exists out',
    columnLoop body ncols out = Some out'
    /\ size0 out' = size0 out /\ size1 out' = size1 out
    /\ forall i p, elem out' i p
                   = if ((p <? ncols) && (i <? size0 out))%nat
                     then elem out i p + F i p else elem out i p.
Proof.
  intros Hbody. unfold columnLoop.
  induction ncols as [| n IH]; intros Hn.
  - exists out. repeat split.
  - destruct (IH ltac:(lia)) as (o & Ho & Hr & Hc & He).
    rewrite seq_S, fold_left_app, Ho. cbn [fold_left bind Nat.add].
    destruct (Hbody n o ltac:(lia)) as (o' & -> & Hr' & Hc' & He').
    exists o'. split; [reflexivity |].
    split; [congruence |]. split; [congruence |].
    intros i p. rewrite He', He, Hr.
    destruct (Nat.eqb_spec p n) as [-> | Hne]; cbn [andb].
    + rewrite Nat.ltb_irrefl. cbn [andb].
      replace (n <? S n)%nat with true by (symmetry; apply Nat.ltb_lt; lia).
      reflexivity.
    + destruct (Nat.ltb_spec p n), (Nat.ltb_spec p (S n)); try lia; reflexivity.
Qed.

Lemma afterModel_rows (b : GaussianModelBuilder) (e : Ellipse) (reuse : bool) :
  rows (afterModel b e reuse) = rows b.
Proof. destruct reuse; reflexivity. Qed.

Lemma afterModel_ready (b : GaussianModelBuilder) (e : Ellipse) (reuse : bool) :
  modelReady b reuse ->
  length (_model (afterModel b e reuse)) = rows (afterModel b e reuse).
Proof.
  intros [-> | H].
  - unfold afterModel, computeModel, rows. cbn [fst _model _xy].
    rewrite !length_map. reflexivity.
  - destruct reuse; [exact H |].
    unfold afterModel, computeModel, rows. cbn [fst _model _xy].
    rewrite !length_map. reflexivity.
Qed.

(** The exception is thrown exactly when the row counts differ, and it is
    then the one about rows: the second test repeats the first. *)
Lemma invalidParameter_iff_rows (b : GaussianModelBuilder) (out : Array2 R)
      (e : Ellipse) (j : Jacobian) (add reuse : bool) (msg : Message) :
  snd (_computeDerivative b out e j add reuse) = InvalidParameter msg
  <-> size0 out <> rows b /\ msg = IncorrectRows (size0 out) (rows b).
Proof.
  unfold _computeDerivative. fold (afterModel b e reuse).
  set (b1 := afterModel b e reuse).
  assert (Hb1 : rows b1 = rows b) by apply afterModel_rows.
  destruct (Nat.eqb_spec (size0 out) (rows b1)) as [Heq | Hne]; cbn [negb snd].
  - split; [| intros [Hc _]; congruence].
    destruct (negb (length (_model b1) =? rows b1)%nat);
      cbn [snd]; [discriminate |].
    destruct (columnLoop _ _ _); cbn [snd]; discriminate.
  - rewrite Hb1 in *. split.
    + intros H. injection H as <-. split; [exact Hne | reflexivity].
    + intros [_ ->]. reflexivity.
Qed.

(** A call on an output with the right number of rows and at least the
    Jacobian's number of columns returns, and adds to each entry of the
    columns [0 .. cols-1] the terms that pass the magnitude test. *)
Lemma computeDerivative_returns (b : GaussianModelBuilder) (out : Array2 R)
      (e : Ellipse) (j : Jacobian) (add reuse : bool) :
  size0 out = rows b -> modelReady b reuse -> (cols j <= size1 out)%nat ->
  exists out',
    _computeDerivative b out e j add reuse = (afterModel b e reuse, out', Returned)
    /\ size0 out' = size0 out /\ size1 out' = size1 out
    /\ forall i p,
         elem out' i p
         = if ((p <? cols j) && (i <? size0 out))%nat
           then (if add then elem out i p else 0)
                + keptSum (afterModel b e reuse) j (epsilon * lpNormInf j) i p
           else (if add then elem out i p else 0).
Proof.
  intros Hrows Hready Hcols.
  unfold _computeDerivative. fold (afterModel b e reuse).
  set (b1 := afterModel b e reuse).
  assert (Hr1 : (size0 out =? rows b1)%nat = true).
  { apply Nat.eqb_eq. subst b1. rewrite afterModel_rows. exact Hrows. }
  assert (Hm1 : (length (_model b1) =? rows b1)%nat = true).
  { apply Nat.eqb_eq. apply afterModel_ready. exact Hready. }
  rewrite Hr1, Hm1. cbn [negb].
  set (start := if add then out else setZero out).
  assert (Hs0 : size0 start = size0 out) by (subst start; destruct add; reflexivity).
  assert (Hs1 : size1 start = size1 out) by (subst start; destruct add; reflexivity).
  destruct (columnLoop_adds (columnBody b1 j (epsilon * lpNormInf j))
              (fun i n => keptSum b1 j (epsilon * lpNormInf j) i n) start
              (columnBody_adds b1 j _) (cols j) ltac:(lia))
    as (o & -> & Hr & Hc & He).
  exists o. split; [reflexivity |].
  split; [congruence |]. split; [congruence |].
  intros i p. rewrite He, Hs0. subst start. destruct add; reflexivity.
Qed.

Lemma computeDerivativeAllTerms_returns (b : GaussianModelBuilder) (out : Array2 R)
      (e : Ellipse) (j : Jacobian) (add reuse : bool) :
  size0 out = rows b -> modelReady b reuse -> (cols j <= size1 out)%nat ->
  exists out',
    computeDerivativeAllTerms b out e j add reuse
    = (afterModel b e reuse, out', Returned)
    /\ size0 out' = size0 out /\ size1 out' = size1 out
    /\ forall i p,
         elem out' i p
         = if ((p <? cols j) && (i <? size0 out))%nat
           then (if add then elem out i p else 0)
                + chainSum (afterModel b e reuse) j i p
           else (if add then elem out i p else 0).
Proof.
  intros Hrows Hready Hcols.
  unfold computeDerivativeAllTerms. fold (afterModel b e reuse).
  set (b1 := afterModel b e reuse).
  assert (Hr1 : (size0 out =? rows b1)%nat = true).
  { apply Nat.eqb_eq. subst b1. rewrite afterModel_rows. exact Hrows. }
  assert (Hm1 : (length (_model b1) =? rows b1)%nat = true).
  { apply Nat.eqb_eq. apply afterModel_ready. exact Hready. }
  rewrite Hr1, Hm1. cbn [negb].
  set (start := if add then out else setZero out).
  assert (Hs0 : size0 start = size0 out) by (subst start; destruct add; reflexivity).
  assert (Hs1 : size1 start = size1 out) by (subst start; destruct add; reflexivity).
  destruct (columnLoop_adds (columnBodyAllTerms b1 j)
              (fun i n => chainSum b1 j i n) start
              (columnBodyAllTerms_adds b1 j) (cols j) ltac:(lia))
    as (o & -> & Hr & Hc & He).
  exists o. split; [reflexivity |].
  split; [congruence |]. split; [congruence |].
  intros i p. rewrite He, Hs0. subst start. destruct add; reflexivity.
Qed.

(** *** The magnitude test *)

Lemma exceeds_true (eps v : R) : eps < Rabs v -> exceeds eps v = true.
Proof. intros H. unfold exceeds. destruct (Rlt_dec eps (Rabs v)); [reflexivity | contradiction]. Qed.

Lemma exceeds_false (eps v : R) : Rabs v <= eps -> exceeds eps v = false.
Proof. intros H. unfold exceeds. destruct (Rlt_dec eps (Rabs v)); [lra | reflexivity]. Qed.

Lemma keptSum_chainSum (b : GaussianModelBuilder) (j : Jacobian) (eps : R) (i p : nat) :
  (forall k, coeff j k p = 0 \/ exceeds eps (coeff j k p) = true) ->
  keptSum b j eps i p = chainSum b j i p.
Proof.
  intros H. unfold keptSum, chainSum, allParams. cbn [map fold_right].
  assert (Hk : forall k, (if exceeds eps (coeff j k p)
                          then affinePartial b k i * coeff j k p else 0)
                         = affinePartial b k i * coeff j k p).
  { intros k. destruct (H k) as [-> | ->]; [| reflexivity].
    destruct (exceeds eps 0); ring. }
  rewrite !Hk. reflexivity.
Qed.

Lemma lpNormInf_tinyJacobian : lpNormInf tinyJacobian = 1.
Proof.
  unfold lpNormInf, tinyJacobian, allParams.
  cbn [cols seq flat_map map coeff app fold_right].
  rewrite Rabs_R0, Rabs_R1.
  rewrite (Rabs_pos_eq (/ 9007199254740992)) by lra.
  unfold Rmax. repeat destruct (Rle_dec _ _); lra.
Qed.

(** The cached buffers of the one-pixel builder under the identity transform. *)
Lemma onePixel_afterModel :
  afterModel (ofFootprint onePixel noContents) unitCircle false
  = mkBuilder [(1, 0)]
              [(1 * 1 + 0 * 0 + 0, 0 * 1 + 1 * 0 + 0)]
              [exp (- (1 / 2) * squaredNorm (1 * 1 + 0 * 0 + 0, 0 * 1 + 1 * 0 + 0))].
Proof. reflexivity. Qed.

Lemma onePixel_dfdx :
  dfdx (afterModel (ofFootprint onePixel noContents) unitCircle false) 0
  = - exp (- (1 / 2)).
Proof.
  rewrite onePixel_afterModel. unfold dfdx, col0, squaredNorm.
  cbn [_xyt _model nth fst snd].
  replace (- (1 / 2) * ((1 * 1 + 0 * 0 + 0) * (1 * 1 + 0 * 0 + 0)
                         + (0 * 1 + 1 * 0 + 0) * (0 * 1 + 1 * 0 + 0)))
    with (- (1 / 2)) by lra.
  lra.
Qed.

Lemma onePixel_dfdy :
  dfdy (afterModel (ofFootprint onePixel noContents) unitCircle false) 0 = 0.
Proof.
  rewrite onePixel_afterModel. unfold dfdy, col1.
  cbn [_xyt _model nth fst snd]. lra.
Qed.

(** On the one-pixel builder and [tinyJacobian], the terms kept by the
    magnitude test sum to 0, the six terms to [- exp(-1/2) / 2^53]. *)
Lemma onePixel_keptSum :
  keptSum (afterModel (ofFootprint onePixel noContents) unitCircle false)
          tinyJacobian (epsilon * lpNormInf tinyJacobian) 0 0 = 0.
Proof.
  rewrite lpNormInf_tinyJacobian.
  unfold keptSum, allParams, affinePartial, tinyJacobian, epsilon.
  cbn [map fold_right coeff]. rewrite onePixel_dfdx, onePixel_dfdy.
  rewrite (exceeds_false _ 0) by (rewrite Rabs_R0; lra).
  rewrite (exceeds_true _ 1) by (rewrite Rabs_R1; lra).
  rewrite (exceeds_false _ (/ 9007199254740992))
    by (rewrite Rabs_pos_eq by lra; lra).
  lra.
Qed.

Lemma onePixel_chainSum :
  chainSum (afterModel (ofFootprint onePixel noContents) unitCircle false)
           tinyJacobian 0 0 = - exp (- (1 / 2)) * / 9007199254740992.
Proof.
  unfold chainSum, allParams, affinePartial, tinyJacobian.
  cbn [map fold_right coeff]. rewrite onePixel_dfdx, onePixel_dfdy. lra.
Qed.

Lemma onePixel_sums_differ :
  - exp (- (1 / 2)) * / 9007199254740992 <> 0.
Proof.
  pose proof (exp_pos (- (1 / 2))) as Hpos.
  intros H. 
  assert (exp (- (1 / 2)) * / 9007199254740992 > 0).
  { apply Rmult_lt_0_compat; lra. }
  lra.
Qed.

(** *** The claims about the builder *)

(** C5: for a grid transform with linear part [[XX, XY], [YX, YY]] and
    translation [(X, Y)], [computeModel] stores for every pixel [(x, y)] the
    transformed coordinates [(XX x + XY y + X, YX x + YY y + Y)] and returns,
    and caches, [exp(-1/2 ((XX x + XY y + X)^2 + (YX x + YY y + Y)^2))], one
    value per pixel in pixel order; the pixel coordinates are untouched.  For
    the identity grid transform over the pixels (0,0), (1,0), (0,1) the model
    is [1, e^(-1/2), e^(-1/2)]; for [T(x,y) = (x/2 - 1, 2y)] over the same
    pixels it is [e^(-1/2), e^(-1/8), e^(-5/2)]. *)
Theorem computeModel_gaussian :
  (forall (b : GaussianModelBuilder) (e : Ellipse),
     snd (computeModel b e)
     = map (fun p =>
              exp (- (1 / 2)
                   * ((getGridTransform e XX * fst p + getGridTransform e XY * snd p
                       + getGridTransform e X)
                      * (getGridTransform e XX * fst p + getGridTransform e XY * snd p
                         + getGridTransform e X)
                      + (getGridTransform e YX * fst p + getGridTransform e YY * snd p
                         + getGridTransform e Y)
                        * (getGridTransform e YX * fst p + getGridTransform e YY * snd p
                           + getGridTransform e Y))))
           (_xy b)
     /\ _xyt (fst (computeModel b e))
        = map (fun p =>
                 (getGridTransform e XX * fst p + getGridTransform e XY * snd p
                  + getGridTransform e X,
                  getGridTransform e YX * fst p + getGridTransform e YY * snd p
                  + getGridTransform e Y))
              (_xy b)
     /\ _model (fst (computeModel b e)) = snd (computeModel b e)
     /\ _xy (fst (computeModel b e)) = _xy b)
  /\ (forall (uninit : nat -> R * R) (d : ATParam -> nat -> R),
        _xy (ofFootprint threePixels uninit) = [(0, 0); (1, 0); (0, 1)]
        /\ snd (computeModel (ofFootprint threePixels uninit)
                             (mkEllipse identityTransform d))
           = [1; exp (- (1 / 2)); exp (- (1 / 2))])
  /\ (forall (uninit : nat -> R * R),
        snd (computeModel (ofFootprint threePixels uninit) shiftedEllipse)
        = [exp (- (1 / 2)); exp (- (1 / 8)); exp (- (5 / 2))]
        /\ _xyt (fst (computeModel (ofFootprint threePixels uninit) shiftedEllipse))
           = [(- 1, 0); (- (1 / 2), 0); (- 1, 2)]).
Proof.
  split; [| split].
  - intros b e. unfold computeModel, applyTransform, squaredNorm.
    cbn [fst snd _xy _xyt _model].
    rewrite map_map. cbn [fst snd]. repeat split; reflexivity.
  - intros uninit d. split; [reflexivity |].
    unfold computeModel. cbn [fst snd].
    change (_xy (ofFootprint threePixels uninit)) with [(0, 0); (1, 0); (0, 1)].
    unfold applyTransform, squaredNorm, identityTransform.
    cbn [map getGridTransform fst snd].
    f_equal; [transitivity (exp 0); [f_equal; lra | apply exp_0] |].
    repeat f_equal; lra.
  - intros uninit. unfold computeModel. cbn [fst snd _xyt].
    change (_xy (ofFootprint threePixels uninit)) with [(0, 0); (1, 0); (0, 1)].
    unfold applyTransform, squaredNorm, shiftedEllipse.
    cbn [map getGridTransform fst snd].
    split; repeat f_equal; lra.
Qed.

(** C1 (what the code does at the failing input): an output with N = 1 rows
    and 3 columns is passed with a Jacobian of 1 column; the column counts
    differ, yet no InvalidParameter is raised and the call returns.  With an
    output of 0 columns the call does not raise either and goes on to write
    a column that the output does not have.  The two public overloads return
    likewise on outputs of 7 columns against the 5 of the grid-transform
    Jacobian, and of 3 columns against a chained Jacobian of 1 column. *)
Theorem column_mismatch_is_not_reported :
  size0 (zeros 1 3) = rows (ofFootprint onePixel noContents)
  /\ size1 (zeros 1 3) <> cols tinyJacobian
  /\ snd (_computeDerivative (ofFootprint onePixel noContents) (zeros 1 3)
                             unitCircle tinyJacobian false false) = Returned
  /\ size0 (zeros 1 0) = rows (ofFootprint onePixel noContents)
  /\ size1 (zeros 1 0) <> cols tinyJacobian
  /\ snd (_computeDerivative (ofFootprint onePixel noContents) (zeros 1 0)
                             unitCircle tinyJacobian false false) = Undefined
  /\ snd (computeDerivative (ofFootprint onePixel noContents) (zeros 1 7)
                            unitCircle false) = Returned
  /\ snd (computeDerivativeChained (ofFootprint onePixel noContents) (zeros 1 3)
                                   unitCircle (mkMatrix5 1 (fun _ _ => 1))
                                   false false) = Returned.
Proof.
  split; [reflexivity |]. split; [discriminate |]. split; [| split; [reflexivity |]].
  - destruct (computeDerivative_returns (ofFootprint onePixel noContents) (zeros 1 3)
                unitCircle tinyJacobian false false
                eq_refl (or_introl eq_refl) ltac:(cbn; lia))
      as (o & -> & _). reflexivity.
  - split; [discriminate |]. split; [| split].
    2:{ unfold computeDerivative.
        destruct (computeDerivative_returns (ofFootprint onePixel noContents)
                    (zeros 1 7) unitCircle
                    (mkJacobian 5 (getGridTransform_d unitCircle)) false false
                    eq_refl (or_introl eq_refl) ltac:(cbn; lia))
          as (o & -> & _). reflexivity. }
    2:{ unfold computeDerivativeChained.
        match goal with
        | |- snd (_computeDerivative _ _ _ ?J _ _) = _ =>
            destruct (computeDerivative_returns (ofFootprint onePixel noContents)
                        (zeros 1 3) unitCircle J false false
                        eq_refl (or_introl eq_refl) ltac:(cbn; lia))
              as (o & -> & _)
        end. reflexivity. }
    unfold _computeDerivative. fold (afterModel (ofFootprint onePixel noContents) unitCircle false).
    rewrite onePixel_afterModel.
    cbn [size0 zeros rows _xy _model length Nat.eqb negb].
    rewrite lpNormInf_tinyJacobian.
    unfold columnLoop, columnBody, tinyJacobian, epsilon.
    cbn [cols seq fold_left coeff bind].
    rewrite (exceeds_false _ 0) by (rewrite Rabs_R0; lra).
    rewrite (exceeds_false _ (/ 9007199254740992))
      by (rewrite Rabs_pos_eq by lra; lra).
    rewrite (exceeds_true _ 1) by (rewrite Rabs_R1; lra).
    reflexivity.
Qed.

(** C4 (as amended): on an output of N rows and P columns, with a usable
    cached model, [_computeDerivative] without [add] returns and leaves in
    entry (i, p) the sum, over those of the six affine coefficients k whose
    Jacobian entry J(k,p) exceeds epsilon times the largest absolute entry of
    J, of (d model_i / d affine_k) J(k,p), where the partials are x dfdx,
    y dfdx, dfdx, x dfdy, y dfdy, dfdy and dfdx = -xyt_x model,
    dfdy = -xyt_y model.  When every entry of J is zero or passes the test,
    this is the full chain-rule sum over the six coefficients. *)
Theorem derivative_chain_rule (b : GaussianModelBuilder) (out : Array2 R)
        (e : Ellipse) (j : Jacobian) (reuse : bool) :
  size0 out = rows b -> size1 out = cols j -> modelReady b reuse ->
  exists out',
    _computeDerivative b out e j false reuse = (afterModel b e reuse, out', Returned)
    /\ (forall i p, (i < rows b)%nat -> (p < cols j)%nat ->
          elem out' i p
          = keptSum (afterModel b e reuse) j (epsilon * lpNormInf j) i p)
    /\ ((forall k p, (p < cols j)%nat ->
           coeff j k p = 0 \/ exceeds (epsilon * lpNormInf j) (coeff j k p) = true) ->
        forall i p, (i < rows b)%nat -> (p < cols j)%nat ->
          elem out' i p = chainSum (afterModel b e reuse) j i p)
    /\ (forall i,
          dfdx (afterModel b e reuse) i
          = - col0 (_xyt (afterModel b e reuse)) i * nth i (_model (afterModel b e reuse)) 0
          /\ dfdy (afterModel b e reuse) i
             = - col1 (_xyt (afterModel b e reuse)) i * nth i (_model (afterModel b e reuse)) 0).
Proof.
  intros Hrows Hcols Hready.
  destruct (computeDerivative_returns b out e j false reuse Hrows Hready ltac:(lia))
    as (o & Ho & _ & _ & He).
  exists o. split; [exact Ho |].
  assert (Hkept : forall i p, (i < rows b)%nat -> (p < cols j)%nat ->
            elem o i p = keptSum (afterModel b e reuse) j (epsilon * lpNormInf j) i p).
  { intros i p Hi Hp. rewrite He.
    replace (p <? cols j)%nat with true by (symmetry; apply Nat.ltb_lt; lia).
    replace (i <? size0 out)%nat with true by (symmetry; apply Nat.ltb_lt; lia).
    cbn [andb]. lra. }
  split; [exact Hkept |]. split.
  - intros Hall i p Hi Hp. rewrite (Hkept i p Hi Hp).
    apply keptSum_chainSum. intros k. apply Hall. exact Hp.
  - intros i. split; reflexivity.
Qed.

(** Witness of C4: one pixel, the identity transform, and a Jacobian whose
    only column has the single non-zero entry 1 on [YY]. *)
Lemma derivative_chain_rule_witness :
  exists out',
    _computeDerivative (ofFootprint onePixel noContents) (zeros 1 1) unitCircle
                       (mkJacobian 1 (fun k _ => match k with YY => 1 | _ => 0 end))
                       false false
    = (afterModel (ofFootprint onePixel noContents) unitCircle false, out', Returned).
Proof.
  destruct (derivative_chain_rule (ofFootprint onePixel noContents) (zeros 1 1)
              unitCircle (mkJacobian 1 (fun k _ => match k with YY => 1 | _ => 0 end))
              false eq_refl eq_refl (or_introl eq_refl))
    as (o & Ho & _).
  exists o. exact Ho.
Defined.

(** C4 (counterexample to the claim as stated): one pixel at (1,0), the
    identity transform and [tinyJacobian].  The call leaves 0 in the only
    entry of the output, whereas the chain-rule sum over the six coefficients
    is [- exp(-1/2) / 2^53]: the term of the entry 2^-53 is dropped. *)
Lemma chain_rule_sum_not_written :
  exists out',
    _computeDerivative (ofFootprint onePixel noContents) (zeros 1 1) unitCircle
                       tinyJacobian false false
    = (afterModel (ofFootprint onePixel noContents) unitCircle false, out', Returned)
    /\ elem out' 0 0 = 0
    /\ chainSum (afterModel (ofFootprint onePixel noContents) unitCircle false)
                tinyJacobian 0 0 = - exp (- (1 / 2)) * / 9007199254740992
    /\ elem out' 0 0
       <> chainSum (afterModel (ofFootprint onePixel noContents) unitCircle false)
                   tinyJacobian 0 0.
Proof.
  destruct (computeDerivative_returns (ofFootprint onePixel noContents) (zeros 1 1)
              unitCircle tinyJacobian false false
              eq_refl (or_introl eq_refl) ltac:(cbn; lia))
    as (o & Ho & _ & _ & He).
  exists o. split; [exact Ho |].
  assert (H0 : elem o 0 0 = 0).
  { rewrite He. cbn [cols tinyJacobian size0 zeros Nat.ltb Nat.leb andb].
    rewrite onePixel_keptSum. lra. }
  split; [exact H0 |]. split; [apply onePixel_chainSum |].
  rewrite H0, onePixel_chainSum. intros H. symmetry in H.
  exact (onePixel_sums_differ H).
Qed.

(** C7 (as amended): when every entry of the Jacobian is either exactly zero
    or larger in magnitude than epsilon times the largest absolute entry, and
    the output has a column for each column of the Jacobian, the call with the
    sparsity skip and the computation of all six terms end the same way, leave
    the same builder and produce the same output entries. *)
Theorem skip_unobservable_without_small_entries
        (b : GaussianModelBuilder) (out : Array2 R) (e : Ellipse) (j : Jacobian)
        (add reuse : bool) :
  (cols j <= size1 out)%nat ->
  (forall k p, (p < cols j)%nat ->
     coeff j k p = 0 \/ exceeds (epsilon * lpNormInf j) (coeff j k p) = true) ->
  fst (fst (_computeDerivative b out e j add reuse))
  = fst (fst (computeDerivativeAllTerms b out e j add reuse))
  /\ snd (_computeDerivative b out e j add reuse)
     = snd (computeDerivativeAllTerms b out e j add reuse)
  /\ size0 (snd (fst (_computeDerivative b out e j add reuse)))
     = size0 (snd (fst (computeDerivativeAllTerms b out e j add reuse)))
  /\ size1 (snd (fst (_computeDerivative b out e j add reuse)))
     = size1 (snd (fst (computeDerivativeAllTerms b out e j add reuse)))
  /\ forall i p,
       elem (snd (fst (_computeDerivative b out e j add reuse))) i p
       = elem (snd (fst (computeDerivativeAllTerms b out e j add reuse))) i p.
Proof.
  intros Hcols Hall.
  unfold _computeDerivative, computeDerivativeAllTerms.
  fold (afterModel b e reuse). set (b1 := afterModel b e reuse).
  destruct (negb (size0 out =? rows b1)%nat); [repeat split |].
  destruct (negb (length (_model b1) =? rows b1)%nat); [repeat split |].
  set (start := if add then out else setZero out).
  assert (Hs1 : size1 start = size1 out) by (subst start; destruct add; reflexivity).
  destruct (columnLoop_adds (columnBody b1 j (epsilon * lpNormInf j))
              (fun i n => keptSum b1 j (epsilon * lpNormInf j) i n) start
              (columnBody_adds b1 j _) (cols j) ltac:(lia))
    as (o & -> & Hr & Hc & He).
  destruct (columnLoop_adds (columnBodyAllTerms b1 j)
              (fun i n => chainSum b1 j i n) start
              (columnBodyAllTerms_adds b1 j) (cols j) ltac:(lia))
    as (o' & -> & Hr' & Hc' & He').
  cbn [fst snd]. repeat split; try congruence.
  intros i p. rewrite He, He'.
  destruct (Nat.ltb_spec p (cols j)) as [Hp | Hp]; cbn [andb]; [| reflexivity].
  destruct (i <? size0 start)%nat; [| reflexivity].
  rewrite keptSum_chainSum; [reflexivity |].
  intros k. apply Hall. exact Hp.
Qed.

(** Witness of C7: a Jacobian whose only non-zero entry is 1. *)
Lemma skip_unobservable_witness :
  snd (_computeDerivative (ofFootprint onePixel noContents) (zeros 1 1) unitCircle
         (mkJacobian 1 (fun k _ => match k with YY => 1 | _ => 0 end)) false false)
  = snd (computeDerivativeAllTerms (ofFootprint onePixel noContents) (zeros 1 1)
           unitCircle
           (mkJacobian 1 (fun k _ => match k with YY => 1 | _ => 0 end)) false false).
Proof.
  refine (proj1 (proj2 (skip_unobservable_without_small_entries
            (ofFootprint onePixel noContents) (zeros 1 1) unitCircle
            (mkJacobian 1 (fun k _ => match k with YY => 1 | _ => 0 end))
            false false _ _))).
  - cbn. lia.
  - intros k p _. cbn [coeff].
    destruct k; try (left; reflexivity).
    right. apply exceeds_true.
    assert (Hn : lpNormInf (mkJacobian 1 (fun k _ => match k with YY => 1 | _ => 0 end)) = 1).
    { unfold lpNormInf, allParams.
      cbn [cols seq flat_map map coeff app fold_right].
      rewrite Rabs_R0, Rabs_R1.
      unfold Rmax. repeat destruct (Rle_dec _ _); lra. }
    rewrite Hn, Rabs_R1. unfold epsilon. lra.
Defined.

(** C7 (counterexample to the claim as stated): on one pixel at (1,0), the
    identity transform and [tinyJacobian], the call with the skip leaves 0 in
    the output entry and the computation of all six terms leaves
    [- exp(-1/2) / 2^53]. *)
Lemma skip_is_observable :
  exists o o',
    _computeDerivative (ofFootprint onePixel noContents) (zeros 1 1) unitCircle
                       tinyJacobian false false
    = (afterModel (ofFootprint onePixel noContents) unitCircle false, o, Returned)
    /\ computeDerivativeAllTerms (ofFootprint onePixel noContents) (zeros 1 1)
                                 unitCircle tinyJacobian false false
       = (afterModel (ofFootprint onePixel noContents) unitCircle false, o', Returned)
    /\ elem o 0 0 = 0
    /\ elem o' 0 0 = - exp (- (1 / 2)) * / 9007199254740992
    /\ elem o 0 0 <> elem o' 0 0.
Proof.
  destruct (computeDerivative_returns (ofFootprint onePixel noContents) (zeros 1 1)
              unitCircle tinyJacobian false false
              eq_refl (or_introl eq_refl) ltac:(cbn; lia))
    as (o & Ho & _ & _ & He).
  destruct (computeDerivativeAllTerms_returns (ofFootprint onePixel noContents)
              (zeros 1 1) unitCircle tinyJacobian false false
              eq_refl (or_introl eq_refl) ltac:(cbn; lia))
    as (o' & Ho' & _ & _ & He').
  exists o, o'. split; [exact Ho |]. split; [exact Ho' |].
  assert (H0 : elem o 0 0 = 0).
  { rewrite He. cbn [cols tinyJacobian size0 zeros Nat.ltb Nat.leb andb].
    rewrite onePixel_keptSum. lra. }
  assert (H1 : elem o' 0 0 = - exp (- (1 / 2)) * / 9007199254740992).
  { rewrite He'. cbn [cols tinyJacobian size0 zeros Nat.ltb Nat.leb andb].
    rewrite onePixel_chainSum. lra. }
  split; [exact H0 |]. split; [exact H1 |].
  rewrite H0, H1. intros H. symmetry in H. exact (onePixel_sums_differ H).
Qed.

(** C8: on an output of N rows and P columns, with a usable cached model,
    the call with [add = true] returns with, in every entry, the prior
    content plus what the call with [add = false] writes into the zeroed
    buffer; and the call with [add = false] writes the same entries whatever
    the prior contents of the output. *)
Theorem add_accumulates (b : GaussianModelBuilder) (out : Array2 R)
        (e : Ellipse) (j : Jacobian) (reuse : bool) :
  size0 out = rows b -> size1 out = cols j -> modelReady b reuse ->
  exists oAdd oZero,
    _computeDerivative b out e j true reuse = (afterModel b e reuse, oAdd, Returned)
    /\ _computeDerivative b (setZero out) e j false reuse
       = (afterModel b e reuse, oZero, Returned)
    /\ (forall i p, elem oAdd i p = elem out i p + elem oZero i p)
    /\ (forall prior, size0 prior = size0 out -> size1 prior = size1 out ->
          exists o,
            _computeDerivative b prior e j false reuse
            = (afterModel b e reuse, o, Returned)
            /\ size0 o = size0 out /\ size1 o = size1 out
            /\ forall i p, elem o i p = elem oZero i p).
Proof.
  intros Hrows Hcols Hready.
  destruct (computeDerivative_returns b out e j true reuse Hrows Hready ltac:(lia))
    as (oAdd & HoAdd & _ & _ & HeAdd).
  destruct (computeDerivative_returns b (setZero out) e j false reuse Hrows Hready
              ltac:(cbn [size1 setZero]; lia))
    as (oZero & HoZero & _ & _ & HeZero).
  exists oAdd, oZero. split; [exact HoAdd |]. split; [exact HoZero |]. split.
  - intros i p. rewrite HeAdd, HeZero. cbn [size0 setZero].
    destruct ((p <? cols j) && (i <? size0 out))%nat; lra.
  - intros prior Hp0 Hp1.
    destruct (computeDerivative_returns b prior e j false reuse
                ltac:(congruence) Hready ltac:(lia))
      as (o & Ho & Hr & Hc & He).
    exists o. split; [exact Ho |]. split; [congruence |]. split; [congruence |].
    intros i p. rewrite He, HeZero. cbn [size0 setZero]. rewrite Hp0. reflexivity.
Qed.

(** Witness of C8: one pixel, [tinyJacobian], and an output holding 7. *)
Lemma add_accumulates_witness :
  exists oAdd oZero,
    _computeDerivative (ofFootprint onePixel noContents)
                       (mkArray2 1 1 (fun _ _ => 7)) unitCircle tinyJacobian true false
    = (afterModel (ofFootprint onePixel noContents) unitCircle false, oAdd, Returned)
    /\ elem oAdd 0 0 = 7 + elem oZero 0 0.
Proof.
  destruct (add_accumulates (ofFootprint onePixel noContents)
              (mkArray2 1 1 (fun _ _ => 7)) unitCircle tinyJacobian false
              eq_refl eq_refl (or_introl eq_refl))
    as (oAdd & oZero & HoAdd & _ & He & _).
  exists oAdd, oZero. split; [exact HoAdd |]. exact (He 0%nat 0%nat).
Defined.

(** C10: when [_computeDerivative] raises InvalidParameter, the output array
    is the one that was passed in, the row counts differ and the message is
    the one about rows; the builder is the one left by [computeModel] when
    [reuseModel = false], with [_xyt] and [_model] recomputed for the new
    ellipse, and is unchanged when [reuseModel = true]. *)
Theorem invalidParameter_leaves_output (b : GaussianModelBuilder) (out : Array2 R)
        (e : Ellipse) (j : Jacobian) (add reuse : bool)
        (b' : GaussianModelBuilder) (out' : Array2 R) (msg : Message) :
  _computeDerivative b out e j add reuse = (b', out', InvalidParameter msg) ->
  out' = out
  /\ size0 out <> rows b
  /\ msg = IncorrectRows (size0 out) (rows b)
  /\ (reuse = false ->
      b' = fst (computeModel b e)
      /\ _xyt b' = map (applyTransform (getGridTransform e)) (_xy b)
      /\ _model b'
         = map (fun p => exp (- (1 / 2)
                              * squaredNorm (applyTransform (getGridTransform e) p)))
               (_xy b))
  /\ (reuse = true -> b' = b).
Proof.
  intros H.
  pose proof (proj1 (invalidParameter_iff_rows b out e j add reuse msg)) as Hiff.
  rewrite H in Hiff. destruct (Hiff eq_refl) as [Hne Hmsg].
  revert H. unfold _computeDerivative. fold (afterModel b e reuse).
  set (b1 := afterModel b e reuse).
  assert (Hb1 : rows b1 = rows b) by apply afterModel_rows.
  destruct (Nat.eqb_spec (size0 out) (rows b1)) as [Heq | _]; [congruence |].
  cbn [negb]. intros H. injection H as Hb Ho _.
  subst b' out'. repeat split; try assumption.
  - subst b1. rewrite H. reflexivity.
  - subst b1. rewrite H. reflexivity.
  - subst b1. rewrite H. unfold afterModel, computeModel. cbn [fst _model].
    rewrite map_map. reflexivity.
  - intros ->. reflexivity.
Qed.

(** Witness of C10: a one-pixel builder that has never computed a model is
    called with an output of two rows; the call raises InvalidParameter, the
    output is untouched, and the cached model is no longer empty. *)
Lemma invalidParameter_leaves_output_witness :
  _computeDerivative (ofFootprint onePixel noContents) (zeros 2 1) unitCircle
                     tinyJacobian false false
  = (fst (computeModel (ofFootprint onePixel noContents) unitCircle), zeros 2 1,
     InvalidParameter (IncorrectRows 2 1))
  /\ _model (ofFootprint onePixel noContents) = []
  /\ _model (fst (computeModel (ofFootprint onePixel noContents) unitCircle))
     = map (fun p => exp (- (1 / 2)
                          * squaredNorm (applyTransform (getGridTransform unitCircle) p)))
           (_xy (ofFootprint onePixel noContents))
  /\ length (_model (fst (computeModel (ofFootprint onePixel noContents) unitCircle)))
     = 1%nat.
Proof.
  split; [reflexivity |]. split; [reflexivity |]. split; [| reflexivity].
  exact (proj2 (proj2 (proj1 (proj2 (proj2 (proj2
           (invalidParameter_leaves_output
              (ofFootprint onePixel noContents) (zeros 2 1) unitCircle tinyJacobian
              false false
              (fst (computeModel (ofFootprint onePixel noContents) unitCircle))
              (zeros 2 1) (IncorrectRows 2 1) eq_refl)))) eq_refl))).
Defined.

End BuilderFacts.

(* ================================================================== *)
(** * Further properties, Part I.  PackedIndex                         *)
(* ================================================================== *)

Section PackedIndexMore.

Import Packed.
Local Open Scope Z_scope.

Lemma tri_lt_next (n x : Z) : 0 <= x <= n -> tri n + x < tri (n + 1).
Proof. intros H. rewrite tri_succ. lia. Qed.

(** A packed position determines its row and column. *)
Lemma tri_unique (n x n' x' : Z) :
  0 <= x <= n -> 0 <= x' <= n' -> tri n + x = tri n' + x' -> n = n' /\ x = x'.
Proof.
  intros Hx Hx' Heq.
  assert (Hn : n = n').
  { destruct (Z.lt_trichotomy n n') as [Hlt | [Heq' | Hgt]]; [exfalso | exact Heq' | exfalso].
    - pose proof (tri_lt_next n x Hx).
      pose proof (tri_mono (n + 1) n' ltac:(lia)). lia.
    - pose proof (tri_lt_next n' x' Hx').
      pose proof (tri_mono (n' + 1) n ltac:(lia)). lia. }
  subst n'. split; [reflexivity | lia].
Qed.

(** X1: [computeOffset] is the triangular number [order(order+1)/2] for
    every order from 0 to 46340; at order 46341 the product
    [order*(order+1)] no longer fits an [int] and the result is negative. *)
Theorem computeOffset_range (order : Z) :
  0 <= order <= 46340 ->
  computeOffset order = order * (order + 1) / 2
  /\ 0 <= computeOffset order <= 1073720970
  /\ computeOffset 46341 = -1073716337.
Proof.
  intros H. unfold computeOffset.
  assert (Hp : 0 <= order * (order + 1) <= 2147441940) by nia.
  rewrite (wrap32_small (order + 1)) by (unfold INT_MAX; lia).
  rewrite (wrap32_small (order * (order + 1))) by (unfold INT_MAX; lia).
  rewrite Z.quot_div_nonneg by lia.
  assert (Hq : 0 <= order * (order + 1) / 2 <= 1073720970).
  { split; [apply Z.div_pos; lia |].
    apply Z.div_le_upper_bound; lia. }
  rewrite wrap32_small by (unfold INT_MAX; lia).
  repeat split; try lia. 
Qed.

Lemma computeOffset_range_witness :
  computeOffset 46340 = 1073720970 /\ computeOffset 46341 = -1073716337.
Proof.
  destruct (computeOffset_range 46340 ltac:(lia)) as (H1 & _ & H2).
  split; [rewrite H1; reflexivity | exact H2].
Defined.

Lemma computeOffset_tri (n : Z) : 0 <= n <= 46340 -> computeOffset n = tri n.
Proof. intros H. apply (computeOffset_range n H). Qed.

Lemma computeIndex_tri (x y : Z) :
  0 <= x -> 0 <= y -> x + y <= 46340 -> computeIndex x y = tri (x + y) + x.
Proof.
  intros Hx Hy Hxy. unfold computeIndex.
  rewrite (wrap32_small (x + y)) by (unfold INT_MAX; lia).
  rewrite computeOffset_tri by lia.
  pose proof (computeOffset_range (x + y) ltac:(lia)) as (_ & Hb & _).
  rewrite computeOffset_tri in Hb by lia.
  apply wrap32_small. unfold INT_MAX. lia.
Qed.

(** X2: on the pairs of order at most [M <= 46340], [computeIndex] is a
    bijection onto [0 .. (M+1)(M+2)/2 - 1]: it stays in that range, two
    pairs with the same index are equal, and every index of the range is the
    index of a pair. *)
Theorem computeIndex_bijection (M : Z) :
  0 <= M <= 46340 ->
  (forall x y, 0 <= x -> 0 <= y -> x + y <= M ->
     0 <= computeIndex x y < basisSize M)
  /\ (forall x y x' y',
        0 <= x -> 0 <= y -> x + y <= M -> 0 <= x' -> 0 <= y' -> x' + y' <= M ->
        computeIndex x y = computeIndex x' y' -> x = x' /\ y = y')
  /\ (forall k, 0 <= k < basisSize M ->
        exists x y, 0 <= x /\ 0 <= y /\ x + y <= M /\ computeIndex x y = k).
Proof.
  intros HM. split; [| split].
  - intros x y Hx Hy Hxy. rewrite computeIndex_tri by lia.
    rewrite basisSize_tri.
    pose proof (tri_nonneg (x + y) ltac:(lia)).
    pose proof (tri_lt_next (x + y) x ltac:(lia)).
    pose proof (tri_mono (x + y + 1) (M + 1) ltac:(lia)). lia.
  - intros x y x' y' Hx Hy Hxy Hx' Hy' Hxy' Heq.
    rewrite !computeIndex_tri in Heq by lia.
    destruct (tri_unique (x + y) x (x' + y') x' ltac:(lia) ltac:(lia) Heq). lia.
  - intros k Hk.
    destruct (tri_decompose_below M k ltac:(lia) Hk) as (n & x & Hx & Hn & ->).
    exists x, (n - x). repeat split; try lia.
    rewrite computeIndex_tri by lia. f_equal. f_equal. lia.
Qed.

Lemma computeIndex_bijection_witness :
  0 <= computeIndex 1 1 < basisSize 2
  /\ exists x y, 0 <= x /\ 0 <= y /\ x + y <= 2 /\ computeIndex x y = 5.
Proof.
  destruct (computeIndex_bijection 2 ltac:(lia)) as (Hr & _ & Hs).
  split.
  - apply Hr; lia.
  - apply Hs. vm_compute. split; [discriminate | reflexivity].
Defined.

(** X3: for a pair of order at most 46340 the two-argument constructor
    builds the state that iteration from the default index reaches after
    [computeIndex x y] increments, and its index is [computeIndex x y]. *)
Theorem make_is_steps (x y : Z) :
  0 <= x -> 0 <= y -> x + y <= 46340 ->
  make x y = steps (computeIndex x y)
  /\ getIndex (make x y) = computeIndex x y
  /\ getOrder (make x y) = x + y.
Proof.
  intros Hx Hy Hxy.
  assert (Hm : make x y = mkPackedIndex (x + y) (tri (x + y) + x) x y).
  { unfold make. rewrite (wrap32_small (x + y)) by (unfold INT_MAX; lia).
    pose proof (computeIndex_tri x y Hx Hy Hxy) as Hi. unfold computeIndex in Hi.
    rewrite (wrap32_small (x + y)) in Hi by (unfold INT_MAX; lia).
    rewrite Hi. reflexivity. }
  rewrite Hm, computeIndex_tri by lia.
  rewrite steps_exact by lia.
  repeat split. f_equal. lia.
Qed.

Lemma make_is_steps_witness : make 2 1 = steps (computeIndex 2 1).
Proof. exact (proj1 (make_is_steps 2 1 ltac:(lia) ltac:(lia) ltac:(lia))). Defined.

(** X4: incrementing the index built for [(x, y)] gives the index built for
    the next pair: [(x+1, y-1)] inside a row, [(0, x+1)] after the last pair
    [(x, 0)] of a row (orders below 46340). *)
Theorem incr_make (x y : Z) :
  0 <= x -> 0 <= y -> x + y < 46340 ->
  incr (make x y) = if y =? 0 then make 0 (x + 1) else make (x + 1) (y - 1).
Proof.
  intros Hx Hy Hxy.
  destruct (make_is_steps x y Hx Hy ltac:(lia)) as (Hs & _ & _).
  rewrite Hs, computeIndex_tri by lia.
  pose proof (tri_nonneg (x + y) ltac:(lia)) as Ht.
  rewrite <- steps_succ by lia.
  destruct (Z.eqb_spec y 0) as [-> | Hne].
  - destruct (make_is_steps 0 (x + 1) ltac:(lia) ltac:(lia) ltac:(lia)) as (-> & _ & _).
    rewrite computeIndex_tri by lia. f_equal.
    rewrite Z.add_0_r, Z.add_0_l, tri_succ. lia.
  - destruct (make_is_steps (x + 1) (y - 1) ltac:(lia) ltac:(lia) ltac:(lia)) as (-> & _ & _).
    rewrite computeIndex_tri by lia. f_equal.
    replace (x + 1 + (y - 1)) with (x + y) by lia. lia.
Qed.

Lemma incr_make_witness :
  incr (make 3 0) = make 0 4 /\ incr (make 1 2) = make 2 1.
Proof.
  split.
  - exact (incr_make 3 0 ltac:(lia) ltac:(lia) ltac:(lia)).
  - exact (incr_make 1 2 ltac:(lia) ltac:(lia) ltac:(lia)).
Defined.

End PackedIndexMore.

(* ================================================================== *)
(** * Further properties, Part III.  GaussianModelBuilder              *)
(* ================================================================== *)

Section BuilderMore.

Import Afw Builder.
Local Open Scope R_scope.

(** *** Row-major addressing of the box constructor *)

Lemma zrange_nth (lo hi : Z) (j : nat) (d : Z) :
  (j < length (zrange lo hi))%nat -> nth j (zrange lo hi) d = (lo + Z.of_nat j)%Z.
Proof.
  intros Hj. rewrite zrange_length in Hj. unfold zrange.
  rewrite (nth_indep _ d (lo + Z.of_nat 0)%Z) by (rewrite length_map, length_seq; lia).
  rewrite (map_nth (fun k => (lo + Z.of_nat k)%Z)).
  rewrite seq_nth by lia. reflexivity.
Qed.

Lemma flat_map_length_const {A B : Type} (f : A -> list B) (w : nat) (l : list A) :
  (forall a, length (f a) = w) -> length (flat_map f l) = (length l * w)%nat.
Proof.
  intros Hw. induction l as [| a l IH]; [reflexivity |].
  cbn [flat_map length]. rewrite length_app, Hw, IH. lia.
Qed.

Lemma flat_map_nth_const {A B : Type} (f : A -> list B) (w : nat) (l : list A)
      (da : A) (d : B) :
  (forall a, length (f a) = w) ->
  forall i j, (i < length l)%nat -> (j < w)%nat ->
  nth (i * w + j) (flat_map f l) d = nth j (f (nth i l da)) d.
Proof.
  intros Hw. induction l as [| a l IH]; intros i j Hi Hj; [cbn in Hi; lia |].
  cbn [flat_map]. destruct i as [| i].
  - cbn [Nat.mul Nat.add nth]. apply app_nth1. rewrite Hw. exact Hj.
  - rewrite app_nth2 by (rewrite Hw; cbn [Nat.mul]; lia).
    rewrite Hw. cbn [Nat.mul nth length] in *.
    replace (w + i * w + j - w)%nat with (i * w + j)%nat by lia.
    apply IH; lia.
Qed.

(** X5: the box constructor lays the pixels out row-major: a non-empty box of
    width W and height H gives W*H rows, and row [(y - minY) * W + (x - minX)]
    of [_xy] holds the pixel [(x, y)], for every pixel of the box. *)
Theorem ofBox2I_row_major (region : Box2I) (uninit : nat -> R * R) (x y : Z) :
  (getMinX region <= x <= getMaxX region)%Z ->
  (getMinY region <= y <= getMaxY region)%Z ->
  let W := (getMaxX region - getMinX region + 1)%Z in
  let H := (getMaxY region - getMinY region + 1)%Z in
  rows (ofBox2I region uninit) = Z.to_nat (W * H)
  /\ length (_xyt (ofBox2I region uninit)) = Z.to_nat (W * H)
  /\ nth (Z.to_nat ((y - getMinY region) * W + (x - getMinX region)))
         (_xy (ofBox2I region uninit)) (0, 0)
     = (IZR x, IZR y).
Proof.
  intros Hx Hy W H. unfold rows, ofBox2I. cbn [_xy _xyt].
  set (row := fun y0 : Z => map (fun x0 => (IZR x0, IZR y0))
                                (zrange (getMinX region) (getMaxX region))).
  assert (Hrow : forall y0, length (row y0) = Z.to_nat W).
  { intros y0. unfold row. rewrite length_map, zrange_length. reflexivity. }
  assert (Hlen : length (flat_map row (zrange (getMinY region) (getMaxY region)))
                 = Z.to_nat (W * H)).
  { rewrite (flat_map_length_const row (Z.to_nat W)) by exact Hrow.
    rewrite zrange_length. fold H. subst W H. nia. }
  split; [exact Hlen |]. split; [rewrite length_map, length_seq; exact Hlen |].
  replace (Z.to_nat ((y - getMinY region) * W + (x - getMinX region)))
    with (Z.to_nat (y - getMinY region) * Z.to_nat W + Z.to_nat (x - getMinX region))%nat
    by (subst W; nia).
  rewrite (flat_map_nth_const row (Z.to_nat W) _ 0%Z (0, 0) Hrow)
    by (rewrite ?zrange_length; subst W; lia).
  rewrite zrange_nth by (rewrite zrange_length; lia).
  replace (getMinY region + Z.of_nat (Z.to_nat (y - getMinY region)))%Z with y by lia.
  unfold row.
  rewrite (nth_indep _ (0, 0) (IZR 0, IZR y))
    by (rewrite length_map, zrange_length; lia).
  rewrite (map_nth (fun x0 => (IZR x0, IZR y))).
  rewrite zrange_nth by (rewrite zrange_length; lia).
  f_equal; f_equal; lia.
Qed.

Lemma ofBox2I_row_major_witness :
  rows (ofBox2I (mkBox2I 2 3 4 4) noContents) = 6%nat
  /\ nth 4 (_xy (ofBox2I (mkBox2I 2 3 4 4) noContents)) (0, 0) = (3, 4).
Proof.
  destruct (ofBox2I_row_major (mkBox2I 2 3 4 4) noContents 3 4
              ltac:(cbn; lia) ltac:(cbn; lia)) as (Hr & _ & Hn).
  split; [exact Hr | exact Hn].
Defined.

(** X18: on a box, the box constructor and the footprint constructor applied
    to the footprint of the box (one span per row) list the same pixel
    coordinates in the same order, and size [_xyt] alike. *)
Theorem box_and_footprint_constructors_agree (region : Box2I) (uninit : nat -> R * R) :
  ofBox2I region uninit = ofFootprint (ofBox region) uninit.
Proof.
  unfold ofBox2I, ofFootprint.
  assert (Hxy : flat_map (fun y => map (fun x => (IZR x, IZR y))
                                       (zrange (getMinX region) (getMaxX region)))
                         (zrange (getMinY region) (getMaxY region))
                = map (fun p => (IZR (fst p), IZR (snd p))) (pixels (ofBox region))).
  { unfold pixels, ofBox.
    induction (zrange (getMinY region) (getMaxY region)) as [| y l IH]; [reflexivity |].
    cbn [flat_map map]. rewrite map_app, IH. f_equal.
    unfold spanPixels. cbn [getY getX0 getX1]. rewrite map_map. reflexivity. }
  rewrite Hxy. reflexivity.
Qed.

(** *** The model values *)

Lemma squaredNorm_nonneg (p : R * R) : 0 <= squaredNorm p.
Proof. unfold squaredNorm. nra. Qed.

Lemma squaredNorm_zero (p : R * R) : squaredNorm p = 0 <-> p = (0, 0).
Proof.
  unfold squaredNorm. destruct p as [u v]. cbn [fst snd]. split.
  - intros H. assert (u = 0) by nra. assert (v = 0) by nra. subst. reflexivity.
  - intros H. injection H as -> ->. ring.
Qed.

Lemma modelAt_bounds (t : AffineTransform) (p : R * R) : 0 < modelAt t p <= 1.
Proof.
  unfold modelAt. split; [apply exp_pos |].
  pose proof (squaredNorm_nonneg (applyTransform t p)) as Hs.
  destruct (Req_dec (squaredNorm (applyTransform t p)) 0) as [-> | Hne].
  - replace (- (1 / 2) * 0) with 0 by ring. rewrite exp_0. lra.
  - pose proof (exp_increasing (- (1 / 2) * squaredNorm (applyTransform t p)) 0
                  ltac:(lra)) as Hlt.
    rewrite exp_0 in Hlt. lra.
Qed.

Lemma modelAt_one (t : AffineTransform) (p : R * R) :
  modelAt t p = 1 <-> applyTransform t p = (0, 0).
Proof.
  rewrite <- squaredNorm_zero. unfold modelAt. split.
  - intros H.
    assert (H' : exp (- (1 / 2) * squaredNorm (applyTransform t p)) = exp 0)
      by (rewrite exp_0; exact H).
    apply exp_inv in H'. lra.
  - intros ->. replace (- (1 / 2) * 0) with 0 by ring. apply exp_0.
Qed.

Lemma computeModel_modelAt (b : GaussianModelBuilder) (e : Ellipse) :
  snd (computeModel b e) = map (modelAt (getGridTransform e)) (_xy b).
Proof. unfold computeModel. cbn [snd]. rewrite map_map. reflexivity. Qed.

(** X6: over the reals, every value of the model returned by [computeModel]
    lies between 0 and 1, and the value at a pixel whose transformed
    coordinates in [_xyt] are (0, 0) is 1. *)
Theorem computeModel_bounds (b : GaussianModelBuilder) (e : Ellipse) :
  Forall (fun m => 0 <= m <= 1) (snd (computeModel b e))
  /\ forall n, (n < rows b)%nat ->
       nth n (_xyt (fst (computeModel b e))) (0, 0) = (0, 0) ->
       nth n (snd (computeModel b e)) 0 = 1.
Proof.
  rewrite computeModel_modelAt. split.
  - apply Forall_forall. intros m Hm. apply in_map_iff in Hm.
    destruct Hm as (p & <- & _).
    pose proof (modelAt_bounds (getGridTransform e) p). lra.
  - intros n Hn. unfold computeModel, rows in *. cbn [fst _xyt].
    rewrite (nth_indep _ 0 (modelAt (getGridTransform e) (0, 0)))
      by (rewrite length_map; exact Hn).
    rewrite (nth_indep _ (0, 0) (applyTransform (getGridTransform e) (0, 0)))
      by (rewrite length_map; exact Hn).
    rewrite (map_nth (modelAt (getGridTransform e))).
    rewrite (map_nth (applyTransform (getGridTransform e))).
    apply modelAt_one.
Qed.

(** *** Reuse of the cached model, copies, and what a call preserves *)

(** X7: with [reuseModel = true] the ellipse argument is not read: after
    [computeModel(e1)], a call with [reuseModel = true] and any ellipse [e2]
    ends exactly as the call with [reuseModel = false] and [e1] on the
    original builder, with the same builder, output and outcome. *)
Theorem reuseModel_uses_last_ellipse (b : GaussianModelBuilder) (out : Array2 R)
        (e1 e2 : Ellipse) (j : Jacobian) (add : bool) :
  _computeDerivative (fst (computeModel b e1)) out e2 j add true
  = _computeDerivative b out e1 j add false.
Proof. reflexivity. Qed.

(** X12: a copy-constructed builder has no cached model.  With
    [reuseModel = false] a call on the copy ends exactly as on the original;
    with [reuseModel = true] a call on a fresh copy of a builder with at
    least one pixel, on an output with the right number of rows, reads the
    empty model and is undefined, whatever model the original had cached. *)
Theorem copy_has_no_cached_model (b : GaussianModelBuilder) (out : Array2 R)
        (e : Ellipse) (j : Jacobian) (add : bool) :
  (0 < rows b)%nat -> size0 out = rows b ->
  _computeDerivative (copyOf b) out e j add false
  = _computeDerivative b out e j add false
  /\ computeModel (copyOf b) e = computeModel b e
  /\ _computeDerivative (copyOf b) out e j add true = (copyOf b, out, Undefined).
Proof.
  intros Hpos Hrows. split; [reflexivity |]. split; [reflexivity |].
  unfold _computeDerivative, rows, copyOf in *. cbn [_xy _model length].
  rewrite Hrows, Nat.eqb_refl. cbn [negb].
  destruct (length (_xy b)) as [| n]; [lia |]. reflexivity.
Qed.

Lemma copy_has_no_cached_model_witness :
  _computeDerivative
    (copyOf (fst (computeModel (ofFootprint onePixel noContents) unitCircle)))
    (zeros 1 1) unitCircle tinyJacobian false true
  = (copyOf (fst (computeModel (ofFootprint onePixel noContents) unitCircle)),
     zeros 1 1, Undefined).
Proof.
  exact (proj2 (proj2 (copy_has_no_cached_model
           (fst (computeModel (ofFootprint onePixel noContents) unitCircle))
           (zeros 1 1) unitCircle tinyJacobian false
           (le_n 1) eq_refl))).
Defined.

Lemma colAdd_shape (out o : Array2 R) (n : nat) (v : nat -> R) :
  colAdd out n v = Some o -> size0 o = size0 out /\ size1 o = size1 out.
Proof.
  unfold colAdd. destruct (n <? size1 out)%nat; [| discriminate].
  intros H. injection H as <-. split; reflexivity.
Qed.

Lemma guarded_shape (c : bool) (out o : Array2 R) (n : nat) (v : nat -> R) :
  (if c then colAdd out n v else Some out) = Some o ->
  size0 o = size0 out /\ size1 o = size1 out.
Proof.
  destruct c; [apply colAdd_shape |].
  intros H. injection H as <-. split; reflexivity.
Qed.

Lemma bind_Some {A B : Type} (m : option A) (f : A -> option B) (r : B) :
  bind m f = Some r -> exists a, m = Some a /\ f a = Some r.
Proof. destruct m as [a |]; [| discriminate]. intros H. exists a. split; [reflexivity | exact H]. Qed.

Lemma columnBody_shape (b : GaussianModelBuilder) (j : Jacobian) (eps : R)
      (n : nat) (out o : Array2 R) :
  columnBody b j eps n out = Some o -> size0 o = size0 out /\ size1 o = size1 out.
Proof.
  unfold columnBody. intros H.
  apply bind_Some in H. destruct H as (o1 & H1 & H).
  apply bind_Some in H. destruct H as (o2 & H2 & H).
  apply bind_Some in H. destruct H as (o3 & H3 & H).
  apply bind_Some in H. destruct H as (o4 & H4 & H).
  apply bind_Some in H. destruct H as (o5 & H5 & H6).
  apply guarded_shape in H1, H2, H3, H4, H5, H6.
  destruct H1, H2, H3, H4, H5, H6. split; congruence.
Qed.

Lemma columnLoop_S (body : nat -> Array2 R -> option (Array2 R)) (n : nat)
      (out : Array2 R) :
  columnLoop body (S n) out = bind (columnLoop body n out) (body n).
Proof. unfold columnLoop. rewrite seq_S, fold_left_app. reflexivity. Qed.

Lemma columnLoop_shape (b : GaussianModelBuilder) (j : Jacobian) (eps : R)
      (ncols : nat) (out o : Array2 R) :
  columnLoop (columnBody b j eps) ncols out = Some o ->
  size0 o = size0 out /\ size1 o = size1 out.
Proof.
  revert o. induction ncols as [| n IH]; intros o H.
  - injection H as <-. split; reflexivity.
  - rewrite columnLoop_S in H. apply bind_Some in H. destruct H as (o' & Ho' & H).
    apply columnBody_shape in H. destruct (IH o' Ho'). destruct H. split; congruence.
Qed.

(** X8: when a call of [_computeDerivative] returns or raises
    InvalidParameter, that is, whenever it does not run into an access
    outside an array, the pixel coordinates [_xy] and the shape of the
    output array are as they were before the call; and if the call was made
    with [reuseModel = false], the buffers [_xyt] and [_model] then have one
    entry per pixel. *)
Theorem computeDerivative_preserves (b : GaussianModelBuilder) (out : Array2 R)
        (e : Ellipse) (j : Jacobian) (add reuse : bool) :
  snd (_computeDerivative b out e j add reuse) <> Undefined ->
  _xy (fst (fst (_computeDerivative b out e j add reuse))) = _xy b
  /\ size0 (snd (fst (_computeDerivative b out e j add reuse))) = size0 out
  /\ size1 (snd (fst (_computeDerivative b out e j add reuse))) = size1 out
  /\ (reuse = false ->
      length (_xyt (fst (fst (_computeDerivative b out e j add reuse)))) = rows b
      /\ length (_model (fst (fst (_computeDerivative b out e j add reuse)))) = rows b).
Proof.
  intros _.
  assert (Hgen : fst (fst (_computeDerivative b out e j add reuse)) = afterModel b e reuse
            /\ size0 (snd (fst (_computeDerivative b out e j add reuse))) = size0 out
            /\ size1 (snd (fst (_computeDerivative b out e j add reuse))) = size1 out).
  { unfold _computeDerivative. fold (afterModel b e reuse).
    set (b1 := afterModel b e reuse).
    destruct (negb (size0 out =? rows b1)%nat); [repeat split |].
    destruct (negb (length (_model b1) =? rows b1)%nat); [repeat split |].
    destruct (columnLoop _ _ _) as [o |] eqn:Ho; cbn [fst snd].
    - apply columnLoop_shape in Ho. destruct Ho as [H0 H1].
      rewrite H0, H1. destruct add; repeat split.
    - destruct add; repeat split. }
  destruct Hgen as (Hb & H0 & H1).
  rewrite Hb. repeat split; try assumption.
  - destruct reuse; reflexivity.
  - subst reuse. unfold afterModel, computeModel, rows. cbn [fst _xyt]. apply length_map.
  - subst reuse. unfold afterModel, computeModel, rows. cbn [fst _model].
    rewrite !length_map. reflexivity.
Qed.

Lemma computeDerivative_preserves_witness :
  snd (_computeDerivative (ofFootprint onePixel noContents) (zeros 2 3) unitCircle
                          tinyJacobian false false)
  = InvalidParameter (IncorrectRows 2 1)
  /\ _xy (fst (fst (_computeDerivative (ofFootprint onePixel noContents) (zeros 2 3)
                                        unitCircle tinyJacobian false false)))
     = _xy (ofFootprint onePixel noContents)
  /\ size1 (snd (fst (_computeDerivative (ofFootprint onePixel noContents) (zeros 2 3)
                                          unitCircle tinyJacobian false false)))
     = 3%nat.
Proof.
  split; [reflexivity |].
  destruct (computeDerivative_preserves (ofFootprint onePixel noContents) (zeros 2 3)
              unitCircle tinyJacobian false false ltac:(discriminate))
    as (Hxy & _ & H1 & _).
  split; [exact Hxy | exact H1].
Defined.

(** *** How a call ends *)

Lemma colAdd_beyond (out : Array2 R) (n : nat) (v : nat -> R) :
  (size1 out <= n)%nat -> colAdd out n v = None.
Proof.
  intros H. unfold colAdd.
  destruct (Nat.ltb_spec n (size1 out)); [lia | reflexivity].
Qed.

Lemma columnBody_quiet (b : GaussianModelBuilder) (j : Jacobian) (eps : R)
      (n : nat) (out : Array2 R) :
  quietColumn j eps n -> columnBody b j eps n out = Some out.
Proof.
  intros Hq. unfold columnBody. rewrite !Hq. reflexivity.
Qed.

Lemma columnBody_beyond (b : GaussianModelBuilder) (j : Jacobian) (eps : R)
      (n : nat) (out o : Array2 R) :
  (size1 out <= n)%nat -> columnBody b j eps n out = Some o -> quietColumn j eps n.
Proof.
  intros Hn H k. unfold columnBody in H.
  destruct (exceeds eps (coeff j XX n)) eqn:E1;
    [rewrite colAdd_beyond in H by exact Hn; discriminate H |].
  cbn [bind] in H.
  destruct (exceeds eps (coeff j XY n)) eqn:E2;
    [rewrite colAdd_beyond in H by exact Hn; discriminate H |].
  cbn [bind] in H.
  destruct (exceeds eps (coeff j X n)) eqn:E3;
    [rewrite colAdd_beyond in H by exact Hn; discriminate H |].
  cbn [bind] in H.
  destruct (exceeds eps (coeff j YX n)) eqn:E4;
    [rewrite colAdd_beyond in H by exact Hn; discriminate H |].
  cbn [bind] in H.
  destruct (exceeds eps (coeff j YY n)) eqn:E5;
    [rewrite colAdd_beyond in H by exact Hn; discriminate H |].
  cbn [bind] in H.
  destruct (exceeds eps (coeff j Y n)) eqn:E6;
    [rewrite colAdd_beyond in H by exact Hn; discriminate H |].
  destruct k; assumption.
Qed.

Lemma columnLoop_completes (b : GaussianModelBuilder) (j : Jacobian) (eps : R)
      (out : Array2 R) (ncols : nat) :
  (exists o, columnLoop (columnBody b j eps) ncols out = Some o)
  <-> (forall p, (size1 out <= p < ncols)%nat -> quietColumn j eps p).
Proof.
  induction ncols as [| n IH].
  - split; [intros _ p Hp; lia | intros _; exists out; reflexivity].
  - rewrite columnLoop_S. split.
    + intros (o & Ho). apply bind_Some in Ho. destruct Ho as (o' & Ho' & Hb).
      intros p Hp. destruct (Nat.eq_dec p n) as [-> | Hne].
      * destruct (columnLoop_shape _ _ _ _ _ _ Ho') as [_ H1].
        apply (columnBody_beyond b j eps n o' o); [lia | exact Hb].
      * apply (proj1 IH); [exists o'; exact Ho' | lia].
    + intros Hq. destruct (proj2 IH) as (o' & Ho').
      { intros p Hp. apply Hq. lia. }
      rewrite Ho'. cbn [bind].
      destruct (columnLoop_shape _ _ _ _ _ _ Ho') as [_ H1].
      destruct (Nat.lt_ge_cases n (size1 o')) as [Hlt | Hge].
      * destruct (columnBody_adds b j eps n o' Hlt) as (o & Ho & _).
        exists o. exact Ho.
      * exists o'. apply columnBody_quiet. apply Hq. lia.
Qed.

(** X9: [_computeDerivative] returns normally exactly when the output has as
    many rows as there are pixels, the cached model has one value per pixel,
    and no Jacobian coefficient passes the magnitude test in a column that
    the output does not have; with the right number of rows and one of the
    other two conditions failing, the call is undefined (it reads or writes
    outside an array).  The number of columns of the output matters in no
    other way. *)
Theorem computeDerivative_outcome (b : GaussianModelBuilder) (out : Array2 R)
        (e : Ellipse) (j : Jacobian) (add reuse : bool) :
  (snd (_computeDerivative b out e j add reuse) = Returned
   <-> size0 out = rows b
       /\ length (_model (afterModel b e reuse)) = rows b
       /\ forall p, (size1 out <= p < cols j)%nat ->
                    quietColumn j (epsilon * lpNormInf j) p)
  /\ (snd (_computeDerivative b out e j add reuse) = Undefined
      <-> size0 out = rows b
          /\ ~ (length (_model (afterModel b e reuse)) = rows b
                /\ forall p, (size1 out <= p < cols j)%nat ->
                             quietColumn j (epsilon * lpNormInf j) p)).
Proof.
  unfold _computeDerivative. fold (afterModel b e reuse).
  set (b1 := afterModel b e reuse).
  assert (Hb1 : rows b1 = rows b) by apply afterModel_rows.
  destruct (Nat.eqb_spec (size0 out) (rows b1)) as [Hr | Hr]; cbn [negb].
  2:{ cbn [snd]. split; split; try discriminate; intros [H _]; congruence. }
  destruct (Nat.eqb_spec (length (_model b1)) (rows b1)) as [Hm | Hm]; cbn [negb].
  2:{ cbn [snd]. split; split; try discriminate.
      - intros (_ & H & _). congruence.
      - intros _. split; [congruence |]. intros [H _]. congruence.
      - intros _. reflexivity. }
  set (start := if add then out else setZero out).
  assert (Hs1 : size1 start = size1 out) by (subst start; destruct add; reflexivity).
  pose proof (columnLoop_completes b1 j (epsilon * lpNormInf j) start (cols j)) as Hloop.
  rewrite Hs1 in Hloop.
  destruct (columnLoop _ _ _) as [o |] eqn:Ho; cbn [snd].
  - assert (Hq := proj1 Hloop (ex_intro _ o eq_refl)).
    split; split; try discriminate.
    + intros _. repeat split; try congruence. exact Hq.
    + intros _. reflexivity.
    + intros [_ Hn]. exfalso. apply Hn. split; [congruence | exact Hq].
  - split; split; try discriminate.
    + intros (_ & _ & Hq). destruct (proj2 Hloop Hq) as (o & Ho'). discriminate Ho'.
    + intros _. split; [congruence |]. intros [_ Hq].
      destruct (proj2 Hloop Hq) as (o & Ho'). discriminate Ho'.
    + intros _. reflexivity.
Qed.

(** *** Rescaling the Jacobian *)

Lemma fold_Rmax_scale (c : R) (l : list R) :
  0 <= c -> fold_right Rmax 0 (map (Rmult c) l) = c * fold_right Rmax 0 l.
Proof.
  intros Hc. induction l as [| a l IH]; cbn [map fold_right]; [ring |].
  rewrite IH. apply RmaxRmult. exact Hc.
Qed.

Lemma lpNormInf_scale (c : R) (j : Jacobian) :
  0 <= c -> lpNormInf (scaleJacobian c j) = c * lpNormInf j.
Proof.
  intros Hc. unfold lpNormInf, scaleJacobian. cbn [cols coeff].
  rewrite <- fold_Rmax_scale by exact Hc. f_equal.
  induction (seq 0 (cols j)) as [| n l IH]; [reflexivity |].
  cbn [flat_map]. rewrite map_app, IH. f_equal.
  rewrite map_map. apply map_ext. intros k.
  rewrite Rabs_mult, (Rabs_pos_eq c Hc). reflexivity.
Qed.

Lemma exceeds_scale (c eps v : R) :
  0 < c -> exceeds (epsilon * (c * eps)) (c * v) = exceeds (epsilon * eps) v.
Proof.
  intros Hc. unfold exceeds.
  rewrite Rabs_mult, (Rabs_pos_eq c) by lra.
  destruct (Rlt_dec (epsilon * (c * eps)) (c * Rabs v)) as [H | H],
           (Rlt_dec (epsilon * eps) (Rabs v)) as [H' | H']; try reflexivity; exfalso.
  - apply H'. apply (Rmult_lt_reg_l c); [exact Hc |]. lra.
  - apply H. replace (epsilon * (c * eps)) with (c * (epsilon * eps)) by ring.
    apply Rmult_lt_compat_l; assumption.
Qed.

Lemma keptSum_scale (b : GaussianModelBuilder) (c : R) (j : Jacobian) (i p : nat) :
  0 < c ->
  keptSum b (scaleJacobian c j) (epsilon * lpNormInf (scaleJacobian c j)) i p
  = c * keptSum b j (epsilon * lpNormInf j) i p.
Proof.
  intros Hc. rewrite lpNormInf_scale by lra.
  unfold keptSum, allParams, scaleJacobian. cbn [map fold_right coeff].
  rewrite !(exceeds_scale c _ _ Hc).
  destruct (exceeds _ (coeff j XX p)), (exceeds _ (coeff j YX p)),
           (exceeds _ (coeff j XY p)), (exceeds _ (coeff j YY p)),
           (exceeds _ (coeff j X p)), (exceeds _ (coeff j Y p)); ring.
Qed.

(** X10: the magnitude test is relative, so the derivative is homogeneous in
    the Jacobian: multiplying every coefficient of the Jacobian by a factor
    [c > 0] multiplies every entry written by a call without [add] by [c]. *)
Theorem jacobian_scaling (b : GaussianModelBuilder) (out : Array2 R)
        (e : Ellipse) (j : Jacobian) (c : R) (reuse : bool) :
  0 < c -> size0 out = rows b -> (cols j <= size1 out)%nat -> modelReady b reuse ->
  exists o oc,
    _computeDerivative b out e j false reuse = (afterModel b e reuse, o, Returned)
    /\ _computeDerivative b out e (scaleJacobian c j) false reuse
       = (afterModel b e reuse, oc, Returned)
    /\ forall i p, elem oc i p = c * elem o i p.
Proof.
  intros Hc Hrows Hcols Hready.
  destruct (computeDerivative_returns b out e j false reuse Hrows Hready Hcols)
    as (o & Ho & _ & _ & He).
  destruct (computeDerivative_returns b out e (scaleJacobian c j) false reuse
              Hrows Hready Hcols)
    as (oc & Hoc & _ & _ & Hec).
  exists o, oc. split; [exact Ho |]. split; [exact Hoc |].
  intros i p. rewrite He, Hec. cbn [cols scaleJacobian].
  destruct ((p <? cols j) && (i <? size0 out))%nat; [| ring].
  rewrite keptSum_scale by exact Hc. ring.
Qed.

Lemma jacobian_scaling_witness :
  exists o oc,
    _computeDerivative (ofFootprint onePixel noContents) (zeros 1 1) unitCircle
                       tinyJacobian false false
    = (afterModel (ofFootprint onePixel noContents) unitCircle false, o, Returned)
    /\ _computeDerivative (ofFootprint onePixel noContents) (zeros 1 1) unitCircle
                          (scaleJacobian 3 tinyJacobian) false false
       = (afterModel (ofFootprint onePixel noContents) unitCircle false, oc, Returned)
    /\ elem oc 0 0 = 3 * elem o 0 0.
Proof.
  destruct (jacobian_scaling (ofFootprint onePixel noContents) (zeros 1 1) unitCircle
              tinyJacobian 3 false ltac:(lra) eq_refl (le_n 1) (or_introl eq_refl))
    as (o & oc & Ho & Hoc & He).
  exists o, oc. split; [exact Ho |]. split; [exact Hoc |]. exact (He 0%nat 0%nat).
Defined.

(** *** The chained overload *)

Lemma flat_map_ext_in {A B : Type} (f g : A -> list B) (l : list A) :
  (forall a, In a l -> f a = g a) -> flat_map f l = flat_map g l.
Proof.
  induction l as [| a l IH]; intros H; [reflexivity |].
  cbn [flat_map]. rewrite (H a (or_introl eq_refl)), IH; [reflexivity |].
  intros a' Ha'. apply H. right. exact Ha'.
Qed.

Lemma fold_left_ext_in {A B : Type} (f g : A -> B -> A) (l : list B) :
  (forall b, In b l -> forall a, f a b = g a b) ->
  forall a, fold_left f l a = fold_left g l a.
Proof.
  induction l as [| b l IH]; intros H a; [reflexivity |].
  cbn [fold_left]. rewrite (H b (or_introl eq_refl)). apply IH.
  intros b' Hb'. apply H. right. exact Hb'.
Qed.

Lemma columnBody_ext (b : GaussianModelBuilder) (j j' : Jacobian) (eps : R)
      (n : nat) (out : Array2 R) :
  (forall k, coeff j k n = coeff j' k n) ->
  columnBody b j eps n out = columnBody b j' eps n out.
Proof.
  intros H. unfold columnBody.
  rewrite (H XX), (H XY), (H X), (H YX), (H YY), (H Y). reflexivity.
Qed.

(** A call reads the Jacobian only through its number of columns and the
    coefficients of those columns. *)
Lemma computeDerivative_ext (b : GaussianModelBuilder) (out : Array2 R)
      (e : Ellipse) (j j' : Jacobian) (add reuse : bool) :
  cols j = cols j' ->
  (forall k p, (p < cols j)%nat -> coeff j k p = coeff j' k p) ->
  _computeDerivative b out e j add reuse = _computeDerivative b out e j' add reuse.
Proof.
  intros Hc H.
  assert (Hn : lpNormInf j = lpNormInf j').
  { unfold lpNormInf. rewrite <- Hc. f_equal. apply flat_map_ext_in.
    intros n Hn. apply in_seq in Hn. apply map_ext. intros k.
    rewrite H by lia. reflexivity. }
  unfold _computeDerivative. fold (afterModel b e reuse).
  set (b1 := afterModel b e reuse).
  rewrite <- Hc, <- Hn. unfold columnLoop.
  rewrite (fold_left_ext_in
             (fun acc n => bind acc (columnBody b1 j (epsilon * lpNormInf j) n))
             (fun acc n => bind acc (columnBody b1 j' (epsilon * lpNormInf j) n))).
  - reflexivity.
  - intros n Hin acc. apply in_seq in Hin. destruct acc as [o |]; [| reflexivity].
    cbn [bind]. apply columnBody_ext. intros k. apply H. lia.
Qed.

(** X11: the chained overload called with the 5 x 5 identity matrix and
    [add = false] ends exactly as the plain overload: the product of the
    grid-transform derivative with the identity is that derivative. *)
Theorem chained_with_identity (b : GaussianModelBuilder) (out : Array2 R)
        (e : Ellipse) (reuse : bool) :
  computeDerivativeChained b out e identity5 false reuse
  = computeDerivative b out e reuse.
Proof.
  unfold computeDerivativeChained, computeDerivative.
  apply computeDerivative_ext; [reflexivity |].
  intros k p Hp. cbn [cols coeff cols5 coeff5 identity5 seq map fold_right] in *.
  destruct p as [| [| [| [| [| p]]]]]; cbn [Nat.eqb]; try ring. lia.
Qed.

(** *** The partials are derivatives of the model *)

Lemma quadratic_directional (A B sx sy : R) :
  derivable_pt_lim
    (fun h => - (1 / 2) * ((A + h * sx) * (A + h * sx) + (B + h * sy) * (B + h * sy)))
    0 (- (A * sx + B * sy)).
Proof.
  unfold derivable_pt_lim. intros eps Heps.
  set (K := (sx * sx + sy * sy) / 2 + 1).
  assert (HK : 0 < K) by (subst K; nra).
  assert (Hd : 0 < eps / K) by (apply Rdiv_lt_0_compat; assumption).
  exists (mkposreal (eps / K) Hd). intros h Hh Hlt. cbn [pos] in Hlt.
  replace ((- (1 / 2) * ((A + (0 + h) * sx) * (A + (0 + h) * sx)
                         + (B + (0 + h) * sy) * (B + (0 + h) * sy))
            - - (1 / 2) * ((A + 0 * sx) * (A + 0 * sx) + (B + 0 * sy) * (B + 0 * sy)))
           / h - - (A * sx + B * sy))
    with (- ((sx * sx + sy * sy) / 2) * h) by (field; exact Hh).
  rewrite Rabs_mult, Rabs_Ropp, (Rabs_pos_eq ((sx * sx + sy * sy) / 2)) by nra.
  assert (HKh : K * Rabs h < eps).
  { apply (Rmult_lt_compat_l K) in Hlt; [| exact HK].
    replace (K * (eps / K)) with eps in Hlt by (field; lra). exact Hlt. }
  pose proof (Rabs_pos h) as Hpos. subst K. nra.
Qed.

Lemma gaussian_directional (A B sx sy : R) :
  derivable_pt_lim
    (fun h => exp (- (1 / 2) * ((A + h * sx) * (A + h * sx)
                                + (B + h * sy) * (B + h * sy))))
    0 (- (A * sx + B * sy) * exp (- (1 / 2) * (A * A + B * B))).
Proof.
  pose proof (derivable_pt_lim_comp
                (fun h => - (1 / 2) * ((A + h * sx) * (A + h * sx)
                                       + (B + h * sy) * (B + h * sy)))
                exp 0 (- (A * sx + B * sy))
                (exp (- (1 / 2) * ((A + 0 * sx) * (A + 0 * sx)
                                   + (B + 0 * sy) * (B + 0 * sy))))
                (quadratic_directional A B sx sy)
                (derivable_pt_lim_exp _)) as H.
  unfold comp in H.
  replace (- (A * sx + B * sy) * exp (- (1 / 2) * (A * A + B * B)))
    with (exp (- (1 / 2) * ((A + 0 * sx) * (A + 0 * sx) + (B + 0 * sy) * (B + 0 * sy)))
          * - (A * sx + B * sy)).
  - exact H.
  - replace ((A + 0 * sx) * (A + 0 * sx) + (B + 0 * sy) * (B + 0 * sy))
      with (A * A + B * B) by ring.
    ring.
Qed.

Lemma computeModel_row (b : GaussianModelBuilder) (e : Ellipse) (i : nat) :
  (i < rows b)%nat ->
  nth i (_xyt (fst (computeModel b e))) (0, 0)
  = applyTransform (getGridTransform e) (nth i (_xy b) (0, 0))
  /\ nth i (_model (fst (computeModel b e))) 0
     = modelAt (getGridTransform e) (nth i (_xy b) (0, 0)).
Proof.
  intros Hi. unfold computeModel, rows in *. cbn [fst _xyt _model]. split.
  - rewrite (nth_indep _ (0, 0) (applyTransform (getGridTransform e) (0, 0)))
      by (rewrite length_map; exact Hi).
    apply (map_nth (applyTransform (getGridTransform e))).
  - rewrite map_map.
    rewrite (nth_indep _ 0 (modelAt (getGridTransform e) (0, 0)))
      by (rewrite length_map; exact Hi).
    apply (map_nth (modelAt (getGridTransform e))).
Qed.

(** X13: the six per-pixel partials that [_computeDerivative] multiplies
    with the Jacobian are the partial derivatives of the model value computed
    by [computeModel]: for every pixel [i] and affine coefficient [k], the
    model value at the pixel, as a function of a change [h] of coefficient
    [k] of the grid transform, has derivative [affinePartial k i] at
    [h = 0]. *)
Theorem partials_are_derivatives (b : GaussianModelBuilder) (e : Ellipse)
        (k : ATParam) (i : nat) :
  (i < rows b)%nat ->
  nth i (snd (computeModel b e)) 0
  = modelAt (getGridTransform e) (nth i (_xy b) (0, 0))
  /\ derivable_pt_lim
       (fun h => modelAt (perturb (getGridTransform e) k h) (nth i (_xy b) (0, 0)))
       0 (affinePartial (fst (computeModel b e)) k i).
Proof.
  intros Hi. destruct (computeModel_row b e i Hi) as [Hxyt Hmodel].
  split; [exact Hmodel |].
  set (t := getGridTransform e) in *.
  destruct (nth i (_xy b) (0, 0)) as [x y] eqn:Hp.
  set (A := t XX * x + t XY * y + t X).
  set (B := t YX * x + t YY * y + t Y).
  assert (Hdx : dfdx (fst (computeModel b e)) i = - A * exp (- (1 / 2) * (A * A + B * B))).
  { unfold dfdx, col0. rewrite Hxyt, Hmodel. reflexivity. }
  assert (Hdy : dfdy (fst (computeModel b e)) i = - B * exp (- (1 / 2) * (A * A + B * B))).
  { unfold dfdy, col1. rewrite Hxyt, Hmodel. reflexivity. }
  assert (Hx : col0 (_xy (fst (computeModel b e))) i = x).
  { unfold col0, computeModel. cbn [fst _xy]. rewrite Hp. reflexivity. }
  assert (Hy : col1 (_xy (fst (computeModel b e))) i = y).
  { unfold col1, computeModel. cbn [fst _xy]. rewrite Hp. reflexivity. }
  unfold affinePartial. rewrite Hx, Hy, Hdx, Hdy.
  destruct k.
  - apply (derivable_pt_lim_ext
             (fun h => exp (- (1 / 2) * ((A + h * x) * (A + h * x)
                                         + (B + h * 0) * (B + h * 0))))).
    + intros h. unfold modelAt, squaredNorm, applyTransform, perturb.
      cbn [ATParam_eqb fst snd]. fold t. subst A B. f_equal. ring.
    + replace (x * (- A * exp (- (1 / 2) * (A * A + B * B))))
        with (- (A * x + B * 0) * exp (- (1 / 2) * (A * A + B * B))) by ring.
      apply gaussian_directional.
  - apply (derivable_pt_lim_ext
             (fun h => exp (- (1 / 2) * ((A + h * 0) * (A + h * 0)
                                         + (B + h * x) * (B + h * x))))).
    + intros h. unfold modelAt, squaredNorm, applyTransform, perturb.
      cbn [ATParam_eqb fst snd]. fold t. subst A B. f_equal. ring.
    + replace (x * (- B * exp (- (1 / 2) * (A * A + B * B))))
        with (- (A * 0 + B * x) * exp (- (1 / 2) * (A * A + B * B))) by ring.
      apply gaussian_directional.
  - apply (derivable_pt_lim_ext
             (fun h => exp (- (1 / 2) * ((A + h * y) * (A + h * y)
                                         + (B + h * 0) * (B + h * 0))))).
    + intros h. unfold modelAt, squaredNorm, applyTransform, perturb.
      cbn [ATParam_eqb fst snd]. fold t. subst A B. f_equal. ring.
    + replace (y * (- A * exp (- (1 / 2) * (A * A + B * B))))
        with (- (A * y + B * 0) * exp (- (1 / 2) * (A * A + B * B))) by ring.
      apply gaussian_directional.
  - apply (derivable_pt_lim_ext
             (fun h => exp (- (1 / 2) * ((A + h * 0) * (A + h * 0)
                                         + (B + h * y) * (B + h * y))))).
    + intros h. unfold modelAt, squaredNorm, applyTransform, perturb.
      cbn [ATParam_eqb fst snd]. fold t. subst A B. f_equal. ring.
    + replace (y * (- B * exp (- (1 / 2) * (A * A + B * B))))
        with (- (A * 0 + B * y) * exp (- (1 / 2) * (A * A + B * B))) by ring.
      apply gaussian_directional.
  - apply (derivable_pt_lim_ext
             (fun h => exp (- (1 / 2) * ((A + h * 1) * (A + h * 1)
                                         + (B + h * 0) * (B + h * 0))))).
    + intros h. unfold modelAt, squaredNorm, applyTransform, perturb.
      cbn [ATParam_eqb fst snd]. fold t. subst A B. f_equal. ring.
    + replace (- A * exp (- (1 / 2) * (A * A + B * B)))
        with (- (A * 1 + B * 0) * exp (- (1 / 2) * (A * A + B * B))) by ring.
      apply gaussian_directional.
  - apply (derivable_pt_lim_ext
             (fun h => exp (- (1 / 2) * ((A + h * 0) * (A + h * 0)
                                         + (B + h * 1) * (B + h * 1))))).
    + intros h. unfold modelAt, squaredNorm, applyTransform, perturb.
      cbn [ATParam_eqb fst snd]. fold t. subst A B. f_equal. ring.
    + replace (- B * exp (- (1 / 2) * (A * A + B * B)))
        with (- (A * 0 + B * 1) * exp (- (1 / 2) * (A * A + B * B))) by ring.
      apply gaussian_directional.
Qed.

Lemma partials_are_derivatives_witness :
  derivable_pt_lim
    (fun h => modelAt (perturb identityTransform X h) (1, 0))
    0 (affinePartial (fst (computeModel (ofFootprint onePixel noContents) unitCircle)) X 0).
Proof.
  exact (proj2 (partials_are_derivatives (ofFootprint onePixel noContents) unitCircle
                  X 0 (le_n 1))).
Defined.

(** X14: at a pixel that the grid transform maps to the origin, the peak of
    the Gaussian, every entry of the derivative written by a call without
    [add] is 0, whatever the Jacobian. *)
Theorem derivative_vanishes_at_peak (b : GaussianModelBuilder) (out : Array2 R)
        (e : Ellipse) (j : Jacobian) (reuse : bool) (i : nat) :
  size0 out = rows b -> (cols j <= size1 out)%nat -> modelReady b reuse ->
  nth i (_xyt (afterModel b e reuse)) (0, 0) = (0, 0) ->
  exists o,
    _computeDerivative b out e j false reuse = (afterModel b e reuse, o, Returned)
    /\ forall p, elem o i p = 0.
Proof.
  intros Hrows Hcols Hready Hpeak.
  destruct (computeDerivative_returns b out e j false reuse Hrows Hready Hcols)
    as (o & Ho & _ & _ & He).
  exists o. split; [exact Ho |]. intros p. rewrite He.
  destruct ((p <? cols j) && (i <? size0 out))%nat; [| reflexivity].
  assert (Hdx : dfdx (afterModel b e reuse) i = 0).
  { unfold dfdx, col0. rewrite Hpeak. cbn [fst]. ring. }
  assert (Hdy : dfdy (afterModel b e reuse) i = 0).
  { unfold dfdy, col1. rewrite Hpeak. cbn [snd]. ring. }
  unfold keptSum, allParams, affinePartial. cbn [map fold_right].
  rewrite Hdx, Hdy.
  destruct (exceeds _ (coeff j XX p)), (exceeds _ (coeff j YX p)),
           (exceeds _ (coeff j XY p)), (exceeds _ (coeff j YY p)),
           (exceeds _ (coeff j X p)), (exceeds _ (coeff j Y p)); ring.
Qed.

Lemma derivative_vanishes_at_peak_witness :
  exists o,
    _computeDerivative (ofFootprint [mkSpan 0 0 0] noContents) (zeros 1 1) unitCircle
                       tinyJacobian false false
    = (afterModel (ofFootprint [mkSpan 0 0 0] noContents) unitCircle false, o, Returned)
    /\ elem o 0 0 = 0.
Proof.
  destruct (derivative_vanishes_at_peak (ofFootprint [mkSpan 0 0 0] noContents)
              (zeros 1 1) unitCircle tinyJacobian false 0
              eq_refl (le_n 1) (or_introl eq_refl)) as (o & Ho & He).
  - change (applyTransform identityTransform (0, 0) = (0, 0)).
    unfold applyTransform, identityTransform. cbn [fst snd].
    apply f_equal2; ring.
  - exists o. split; [exact Ho | exact (He 0%nat)].
Defined.

End BuilderMore.

(* ================================================================== *)
(** * Further properties, Part II.  ModelInputHandler and FitProfile   *)
(* ================================================================== *)

Section HandlerMore.

Import Afw Handler Builder Fit.
Local Open Scope R_scope.









(** *** The flux of fitShapeletTerms *)

Lemma residual_expand (a : R) (v d : list R) :
  length v = length d ->
  residual a v d = dot d d - 2 * a * dot v d + a * a * dot v v.
Proof.
  revert d. induction v as [| x v IH]; intros [| y d] Hlen; try discriminate Hlen.
  - unfold residual, dot, cwiseMul. cbn. ring.
  - injection Hlen as Hlen. specialize (IH d Hlen).
    unfold residual, dot, cwiseMul in *. cbn [combine map fold_right fst snd] in *.
    rewrite IH. ring.
Qed.

Lemma weightedVector_length (vector : list R) (inputs : ModelInputHandler) :
  length vector = length (_data inputs) ->
  (forall w, _weights inputs = Some w -> length w = length (_data inputs)) ->
  length (weightedVector vector inputs) = length (_data inputs).
Proof.
  intros Hv Hw. unfold weightedVector.
  destruct (_weights inputs) as [[| w0 w] |] eqn:E; try exact Hv.
  unfold cwiseMul. rewrite length_map, length_combine, Hv, (Hw _ eq_refl). lia.
Qed.

Lemma weightedVector_weights (vector : list R) (inputs : ModelInputHandler)
      (w : list R) :
  length vector = length (_data inputs) ->
  length w = length (_data inputs) ->
  _weights inputs = Some w ->
  weightedVector vector inputs = cwiseMul vector w.
Proof.
  intros Hv Hw Hsome. unfold weightedVector. rewrite Hsome.
  destruct w as [| w0 w]; [| reflexivity].
  destruct vector as [| v0 vector]; [reflexivity |].
  cbn [length] in *. congruence.
Qed.

(** X17: in [fitShapeletTerms], with a model vector and weights of the
    length of the data: when the handler has weights [w], the vector used is
    the accumulated model vector multiplied entry by entry with [w], and
    the stored flux is the dot product of that weighted vector with the
    data; when it has none, the vector is used as it is.  If the vector [v]
    so obtained is not zero, the stored uncertainty squared is [1 / |v|^2],
    and it is the product [flux * fluxErr^2] that is the least-squares
    amplitude: no amplitude gives a smaller sum of squared residuals of the
    data against [v].  The ellipse, the profile and the failure flag are left
    as they were. *)
Theorem flux_times_variance_is_least_squares (vector : list R)
        (inputs : ModelInputHandler) (model : FitProfileModel) (a : R) :
  length vector = length (_data inputs) ->
  (forall w, _weights inputs = Some w -> length w = length (_data inputs)) ->
  0 < dot (weightedVector vector inputs) (weightedVector vector inputs) ->
  (forall w, _weights inputs = Some w ->
     weightedVector vector inputs = cwiseMul vector w
     /\ flux (fitShapeletTerms vector inputs model)
        = dot (cwiseMul vector w) (_data inputs))
  /\ (_weights inputs = None ->
      weightedVector vector inputs = vector
      /\ flux (fitShapeletTerms vector inputs model) = dot vector (_data inputs))
  /\ flux (fitShapeletTerms vector inputs model)
     = dot (weightedVector vector inputs) (_data inputs)
  /\ fluxErr (fitShapeletTerms vector inputs model)
     * fluxErr (fitShapeletTerms vector inputs model)
     = / dot (weightedVector vector inputs) (weightedVector vector inputs)
  /\ residual (flux (fitShapeletTerms vector inputs model)
               * (fluxErr (fitShapeletTerms vector inputs model)
                  * fluxErr (fitShapeletTerms vector inputs model)))
              (weightedVector vector inputs) (_data inputs)
     <= residual a (weightedVector vector inputs) (_data inputs)
  /\ ellipse (fitShapeletTerms vector inputs model) = ellipse model
  /\ profile (fitShapeletTerms vector inputs model) = profile model
  /\ failed (fitShapeletTerms vector inputs model) = failed model.
Proof.
  intros Hv Hw Hpos.
  pose proof (weightedVector_length vector inputs Hv Hw) as Hlen.
  split.
  { intros w Hsome.
    pose proof (weightedVector_weights vector inputs w Hv (Hw w Hsome) Hsome) as Hwv.
    split; [exact Hwv |].
    unfold fitShapeletTerms. cbn [flux]. rewrite Hwv. reflexivity. }
  split.
  { intros Hnone.
    assert (Hwv : weightedVector vector inputs = vector)
      by (unfold weightedVector; rewrite Hnone; reflexivity).
    split; [exact Hwv |].
    unfold fitShapeletTerms. cbn [flux]. rewrite Hwv. reflexivity. }
  unfold fitShapeletTerms. cbn [flux fluxErr ellipse profile failed].
  set (v := weightedVector vector inputs) in *.
  set (s := dot v v) in *. set (f := dot v (_data inputs)).
  assert (Hvar : sqrt (1 / s) * sqrt (1 / s) = / s).
  { rewrite sqrt_sqrt.
    - unfold Rdiv. ring.
    - apply Rlt_le. apply Rdiv_lt_0_compat; lra. }
  split; [reflexivity |]. split; [exact Hvar |].
  split; [| repeat split].
  rewrite Hvar, !residual_expand by exact Hlen. fold s f.
  assert (Hf : s * (f * / s) = f) by (field; lra).
  set (a0 := f * / s) in *.
  pose proof (Rle_0_sqr (a - a0)) as Hsq. unfold Rsqr in Hsq.
  clearbody a0. rewrite <- Hf. nra.
Qed.

(** Witness of X17: model vector (1, 2), weights (2, 3), weighted data
    (3, 6): the vector used is (2, 6) and the flux is 2*3 + 6*6 = 42. *)
Lemma flux_times_variance_is_least_squares_witness :
  weightedVector [1; 2]
    (mkModelInputHandler [mkSpan 0 0 1] [0; 1] [0; 0] [3; 6] (Some [2; 3]))
  = cwiseMul [1; 2] [2; 3]
  /\ flux (fitShapeletTerms [1; 2]
             (mkModelInputHandler [mkSpan 0 0 1] [0; 1] [0; 0] [3; 6] (Some [2; 3]))
             (mkFitProfileModel String.EmptyString 0 0 (0, 0, 0) false))
     = dot (cwiseMul [1; 2] [2; 3]) [3; 6].
Proof.
  refine (proj1 (flux_times_variance_is_least_squares [1; 2]
            (mkModelInputHandler [mkSpan 0 0 1] [0; 1] [0; 0] [3; 6] (Some [2; 3]))
            (mkFitProfileModel String.EmptyString 0 0 (0, 0, 0) false)
            0 eq_refl _ _) [2; 3] eq_refl).
  - intros w Hw. injection Hw as <-. reflexivity.
  - unfold weightedVector, dot, cwiseMul. cbn. lra.
Defined.

End HandlerMore.
